(** * dummy_server.py: an echo-and-broadcast TCP test server

    A shallow embedding of [src/dummy_server.py] and the properties its
    specification states about it.

    The program is a single-threaded event loop over Python's [socket]
    and [selectors] modules.  Everything the loop observes from the
    outside (which handles are ready, what each [recv] yields, whether
    [accept] or [send] fail) is an input of the model; everything it does
    to the outside (calls on sockets and on the selector, diagnostic
    prints) is recorded in a trace of actions.  Python objects are
    identified by a number, as [is]/[==] identify socket objects. *)

From Stdlib Require Import Strings.String Strings.Byte.
From stdpp Require Import base gmap sets list strings sorting.


(** ** Data *)

Abbreviation bytes := (list byte).

Definition RECV_MAX : nat := 4000.

(** A socket object, by identity. *)
Abbreviation sock := nat.

(** [server = socket.socket()] is the first object the program creates. *)
Definition server : sock := 0.

(** The peer address returned by [accept]: informational only. *)
Definition address : Type := string * Z.

(** *** Exceptions

    The classes of Python's built-in hierarchy the program can meet, with
    their method resolution order ([cls.__mro__], without [object]). *)
Inductive exn_class :=
| BaseException | Exception
| LookupError | KeyError | ValueError | AttributeError
| OSError | BlockingIOError | ConnectionError
| ConnectionResetError | BrokenPipeError.

#[global] Instance exn_class_eq_dec : EqDecision exn_class.
Proof. solve_decision. Defined.

Definition mro (c : exn_class) : list exn_class :=
  match c with
  | BaseException => [BaseException]
  | Exception => [Exception; BaseException]
  | LookupError => [LookupError; Exception; BaseException]
  | KeyError => [KeyError; LookupError; Exception; BaseException]
  | ValueError => [ValueError; Exception; BaseException]
  | AttributeError => [AttributeError; Exception; BaseException]
  | OSError => [OSError; Exception; BaseException]
  | BlockingIOError => [BlockingIOError; OSError; Exception; BaseException]
  | ConnectionError => [ConnectionError; OSError; Exception; BaseException]
  | ConnectionResetError =>
      [ConnectionResetError; ConnectionError; OSError; Exception; BaseException]
  | BrokenPipeError =>
      [BrokenPipeError; ConnectionError; OSError; Exception; BaseException]
  end.

Definition issubclass (c d : exn_class) : bool := bool_decide (d ∈ mro c).

(** An exception value: an instance of a class raised by the outside world,
    or the [AttributeError] of a failed attribute lookup, which carries the
    object and the attribute name. *)
Inductive exn :=
| Error (c : exn_class)
| NoAttribute (o : sock) (name : string).

Definition class_of (e : exn) : exn_class :=
  match e with
  | Error c => c
  | NoAttribute _ _ => AttributeError
  end.

(** *** What the outside world answers *)

(** One call [s.recv(RECV_MAX)]: bytes, or an exception. *)
Inductive recv_result :=
| Recv (data : bytes)
| RecvRaise (c : exn_class).

(** One call [s.accept()]: the peer's address, or an exception. *)
Inductive accept_result :=
| Accepted (a : address)
| AcceptRaise (c : exn_class).

(** *** What the program does to the outside world *)

Inductive output :=
| Line (text : string)
| GotSocket (connection : sock) (a : address)
| Got (data : bytes).

Inductive action :=
| ARecv (s : sock) (r : recv_result)
| AClose (s : sock)
| AAccept (connection : sock) (a : address)
| ASetblocking (s : sock)
| ARegister (s : sock)
| AUnregister (s : sock)
| ASend (s : sock) (data : bytes)
| APrint (o : output).

(** *** Program state

    [sel] is the selector's registration table, [clients] the list of
    [main], [closed] the socket objects on which [close()] has been called,
    [next_obj] the identity of the next object created. *)
Record world := World {
  sel : gset sock;
  clients : list sock;
  closed : gset sock;
  next_obj : sock
}.

(** ** A monad for state, trace and exceptions *)

Inductive result (A : Type) :=
| Ok (a : A)
| Raised (e : exn).
Arguments Ok {A} a.
Arguments Raised {A} e.

Definition M (A : Type) : Type := world → result A * world * list action.

#[global] Instance M_ret : MRet M := λ A a w, (Ok a, w, []).

#[global] Instance M_bind : MBind M := λ A B f m w,
  match m w with
  | (Ok a, w1, t1) =>
      match f a w1 with
      | (r, w2, t2) => (r, w2, t1 ++ t2)
      end
  | (Raised e, w1, t1) => (Raised e, w1, t1)
  end.

Definition raise {A} (e : exn) : M A := λ w, (Raised e, w, []).

Definition emit (a : action) : M unit := λ w, (Ok (), w, [a]).

(** [try: m except ...]: the exception, if any, becomes a value. *)
Definition attempt {A} (m : M A) : M (exn + A) := λ w,
  match m w with
  | (Ok a, w1, t) => (Ok (inr a), w1, t)
  | (Raised e, w1, t) => (Ok (inl e), w1, t)
  end.

Definition world_of {A} (x : result A * world * list action) : world := x.1.2.
Definition trace_of {A} (x : result A * world * list action) : list action := x.2.
Definition result_of {A} (x : result A * world * list action) : result A := x.1.1.

(** ** The socket and selector operations the program calls *)

Definition print (o : output) : M unit := emit (APrint o).

(** [s.recv(RECV_MAX)].  On a handle this program has closed the call
    raises [OSError] (bad file descriptor); otherwise the outside world
    decides. *)
Definition recv (s : sock) (r : recv_result) : M bytes := λ w,
  if decide (s ∈ closed w) then
    (Raised (Error OSError), w, [ARecv s (RecvRaise OSError)])
  else
    match r with
    | Recv data => (Ok data, w, [ARecv s r])
    | RecvRaise c => (Raised (Error c), w, [ARecv s r])
    end.

(** [s.close()]: closing twice is allowed and does nothing more. *)
Definition close (s : sock) : M unit := λ w,
  (Ok (),
   {| sel := sel w; clients := clients w;
      closed := {[s]} ∪ closed w; next_obj := next_obj w |},
   [AClose s]).

(** [s.send(data)]. *)
Definition send (s : sock) (data : bytes) (r : option exn_class) : M unit := λ w,
  if decide (s ∈ closed w) then (Raised (Error OSError), w, [ASend s data])
  else
    match r with
    | None => (Ok (), w, [ASend s data])
    | Some c => (Raised (Error c), w, [ASend s data])
    end.

(** [s.write(data)]: socket objects have [send], [sendall], [recv], ...
    but no attribute [write]; the lookup raises [AttributeError] before
    anything is called. *)
Definition write (s : sock) (data : bytes) : M unit :=
  raise (NoAttribute s "write"%string).

(** [s.accept()] on the listening socket: a new socket object. *)
Definition accept (r : accept_result) : M (sock * address) := λ w,
  match r with
  | Accepted a =>
      (Ok (next_obj w, a),
       {| sel := sel w; clients := clients w;
          closed := closed w; next_obj := S (next_obj w) |},
       [AAccept (next_obj w) a])
  | AcceptRaise c => (Raised (Error c), w, [])
  end.

Definition setblocking (s : sock) : M unit := emit (ASetblocking s).

(** [sel.register(s, EVENT_READ)]: [KeyError] for an object that is
    already registered (it is found even when it has been closed since),
    [ValueError] for a closed one that is not (its [fileno()] is -1). *)
Definition register (s : sock) : M unit := λ w,
  if decide (s ∈ sel w) then (Raised (Error KeyError), w, [])
  else if decide (s ∈ closed w) then (Raised (Error ValueError), w, [])
  else
    (Ok (),
     {| sel := {[s]} ∪ sel w; clients := clients w;
        closed := closed w; next_obj := next_obj w |},
     [ARegister s]).

(** [sel.unregister(s)]: a registered object is found even when it has
    been closed since; one that is not registered raises [KeyError], or
    [ValueError] when it is closed. *)
Definition unregister (s : sock) : M unit := λ w,
  if decide (s ∈ sel w) then
    (Ok (),
     {| sel := sel w ∖ {[s]}; clients := clients w;
        closed := closed w; next_obj := next_obj w |},
     [AUnregister s])
  else if decide (s ∈ closed w) then (Raised (Error ValueError), w, [])
  else (Raised (Error KeyError), w, []).

Definition get_clients : M (list sock) := λ w, (Ok (clients w), w, []).

Definition set_clients (l : list sock) : M unit := λ w,
  (Ok (),
   {| sel := sel w; clients := l; closed := closed w; next_obj := next_obj w |},
   []).

(** ** [read(socket)] *)

(** The [except] clauses of [read], in the order the source lists them. *)
Inductive clause :=
| ExceptBlockingIOError
| ExceptOSError
| ExceptConnectionResetError.

Definition clauses : list clause :=
  [ExceptBlockingIOError; ExceptOSError; ExceptConnectionResetError].

Definition catches (c : clause) : exn_class :=
  match c with
  | ExceptBlockingIOError => BlockingIOError
  | ExceptOSError => OSError
  | ExceptConnectionResetError => ConnectionResetError
  end.

(** Python runs the first clause whose class the exception is an instance
    of. *)
Definition select_clause (e : exn) : option clause :=
  List.find (λ c, issubclass (class_of e) (catches c)) clauses.

(** The body of a clause; the result is the new value of [has_eof]. *)
Definition run_clause (c : clause) (has_eof : bool) : M bool :=
  match c with
  | ExceptBlockingIOError =>
      print (Line "Got a BlockingIOError in read() call.");; mret has_eof
  | ExceptOSError =>
      print (Line "Got an OSError in read() call.");; mret true
  | ExceptConnectionResetError =>
      print (Line "Got a ConnectionResetError in read() call.");; mret true
  end.

(** One turn of [while True:].  [db] is rebound before the tests, so it
    keeps what was read when a later [recv] raises. *)
Inductive turn :=
| Continue (db : bytes)
| Stop (thrown : option exn) (has_eof : bool) (db : bytes).

Definition iteration (s : sock) (r : recv_result) (db : bytes) : M turn :=
  x ← attempt (recv s r);
  match x with
  | inl e => mret (Stop (Some e) false db)
  | inr data =>
      let db := db ++ data in
      if bool_decide (length data = 0) then
        print (Line "EOF condition reached");; mret (Stop None true db)
      else if bool_decide (length data < RECV_MAX) then
        mret (Stop None false db)
      else mret (Continue db)
  end.

(** The loop, against the list of what the successive [recv] calls yield.
    The list is what the kernel holds for the handle at this moment: a
    [recv] past its end finds nothing pending and raises
    [BlockingIOError]. *)
Fixpoint recv_loop (s : sock) (script : list recv_result) (db : bytes)
  : M (option exn * bool * bytes) :=
  step ← iteration s (hd (RecvRaise BlockingIOError) script) db;
  match step, script with
  | Stop thrown has_eof db', _ => mret (thrown, has_eof, db')
  | Continue db', _ :: rest => recv_loop s rest db'
  | Continue db', [] => mret (None, false, db')
  end.

Definition read (s : sock) (script : list recv_result) : M (bool * bytes) :=
  '(thrown, has_eof, db) ← recv_loop s script [];
  has_eof ← match thrown with
            | None => mret has_eof
            | Some e =>
                match select_clause e with
                | Some c => run_clause c has_eof
                | None => raise e
                end
            end;
  (if has_eof : bool then close s else mret ());;
  mret (has_eof, db).

(** ** [main()] *)

(** [clients.remove(s)]: drops the first occurrence, [ValueError] when
    there is none. *)
Fixpoint remove (s : sock) (l : list sock) : list sock :=
  match l with
  | [] => []
  | x :: l' => if decide (x = s) then l' else x :: remove s l'
  end.

Definition clients_remove (s : sock) : M unit :=
  l ← get_clients;
  if decide (s ∈ l) then set_clients (remove s l) else raise (Error ValueError).

(** [while s in clients: clients.remove(s)].  Every turn shortens the
    list, so its length at entry bounds the number of turns. *)
Fixpoint remove_while (turns : nat) (s : sock) : M unit :=
  match turns with
  | 0 => mret ()
  | S turns' =>
      l ← get_clients;
      if decide (s ∈ l) then clients_remove s;; remove_while turns' s
      else mret ()
  end.

(** One entry of [events]: the ready object, and what the calls made on it
    while it is handled will yield. *)
Record ready := Ready {
  fileobj : sock;
  on_accept : accept_result;
  on_recv : list recv_result
}.

(** The body of [for key, mask in events:]. *)
Definition handle_event (ev : ready) : M unit :=
  let s := fileobj ev in
  if decide (s = server) then
    '(connection, a) ← accept (on_accept ev);
    setblocking connection;;
    register connection;;
    l ← get_clients;
    set_clients (l ++ [connection]);;
    print (GotSocket connection a)
  else
    '(eof, data) ← read s (on_recv ev);
    (if negb eof then write s data;; print (Got data) else mret ());;
    (if eof : bool then
       unregister s;;
       l ← get_clients;
       remove_while (length l) s
     else mret ()).

Fixpoint process_events (evs : list ready) : M unit :=
  match evs with
  | [] => mret ()
  | ev :: evs' => handle_event ev;; process_events evs'
  end.

Definition line1 : string :=
  "Lorem ipsum quod ecit sit dolor remen.  Amputate mixed bias is confusing and inadequate, but spindrift accumulation has been allowing the issue to go unnoticed for the past several thousand head of sheep in a herd where x is not negative.  If x is negative, go to page 99999999999.".

Definition line2 : string :=
  "This is line two of a two-line message.  Welcome to the future!".

Definition line3 : string :=
  "Sorry, we were just kidding.  It's actually three lines...".

Definition newline : string := String (Ascii.ascii_of_nat 10) EmptyString.

(** The bytes literal of the broadcast. *)
Definition PAYLOAD : bytes :=
  list_byte_of_string
    (line1 +:+ newline +:+ line2 +:+ newline +:+ line3 +:+ newline).

(** [for client in clients: client.send(...)]. *)
Fixpoint broadcast (on_send : sock → option exn_class) (l : list sock) : M unit :=
  match l with
  | [] => mret ()
  | client :: l' => send client PAYLOAD (on_send client);; broadcast on_send l'
  end.

(** One turn of the main loop: what [sel.select(timeout=1)] returned (the
    empty list on a timeout), and what each [send] of the broadcast
    yields. *)
Record poll := Poll {
  events : list ready;
  on_send : sock → option exn_class
}.

Definition cycle (p : poll) : M unit :=
  process_events (events p);;
  l ← get_clients;
  broadcast (on_send p) l.

(** Finitely many turns of [while True:]. *)
Fixpoint main_loop (ps : list poll) : M unit :=
  match ps with
  | [] => mret ()
  | p :: ps' => cycle p;; main_loop ps'
  end.

(** The state in which the loop is entered: the listening socket exists
    and is registered, [clients = []]. *)
Definition boot : world :=
  {| sel := {[server]}; clients := []; closed := ∅; next_obj := 1 |}.

Definition main (ps : list poll) : M unit :=
  print (Line "Listening on localhost:7072.");;
  main_loop ps.

(** * Vocabulary of the properties *)

(** ** Reading traces *)

(** The bytes a trace shows as received, in order. *)
Definition received (t : list action) : bytes :=
  concat (omap (λ a, match a with
                     | ARecv _ (Recv data) => Some data
                     | _ => None
                     end) t).

(** The diagnostic output of a trace. *)
Definition printed (t : list action) : list output :=
  omap (λ a, match a with APrint o => Some o | _ => None end) t.

(** The [send] calls of a trace: the connection and the bytes. *)
Definition sends (t : list action) : list (sock * bytes) :=
  omap (λ a, match a with ASend c data => Some (c, data) | _ => None end) t.

Definition is_send (a : action) : Prop :=
  match a with
  | ASend _ _ => True
  | _ => False
  end.

(** The actions on the connection [s], and the prints. *)
Definition about (s : sock) (a : action) : Prop :=
  match a with
  | ARecv c _ | AClose c | AUnregister c => c = s
  | APrint _ => True
  | _ => False
  end.

(** Whatever is sent is the payload of the broadcast. *)
Definition payload_only (a : action) : Prop :=
  match a with
  | ASend _ data => data = PAYLOAD
  | _ => True
  end.


(** The newline-terminated lines of a byte string, and what follows the
    last newline. *)
Fixpoint split_lines (cur : bytes) (bs : bytes) : list bytes * bytes :=
  match bs with
  | [] => ([], cur)
  | b :: bs' =>
      if Byte.eqb b x0a then
        let '(ls, r) := split_lines [] bs' in ((cur ++ [b]) :: ls, r)
      else split_lines (cur ++ [b]) bs'
  end.

(** ** Exceptions *)

Definition is_error (e : exn) : Prop := ∃ c, e = Error c.

(** An exception that is not the failed lookup of an attribute on an
    object other than [s]. *)
Definition lookup_on (s : sock) (e : exn) : Prop :=
  match e with
  | NoAttribute o _ => o = s
  | Error _ => True
  end.

Definition turn_db (step : turn) : bytes :=
  match step with
  | Continue db => db
  | Stop _ _ db => db
  end.

(** The exception a turn of the loop of [read] keeps is one raised by
    [recv]. *)
Definition turn_error (step : turn) : Prop :=
  match step with
  | Stop (Some e) _ _ => is_error e
  | _ => True
  end.

Definition kept_error (x : option exn * bool * bytes) : Prop :=
  match x.1.1 with
  | Some e => is_error e
  | None => True
  end.

(** ** What a computation may do

    [behaves P Q R m]: from any state, every action of [m] satisfies [P],
    a value it returns satisfies [R], and an exception escaping from it
    satisfies [Q]. *)
Definition behaves {A} (P : action → Prop) (Q : exn → Prop) (R : A → Prop)
    (m : M A) : Prop :=
  ∀ w, Forall P (trace_of (m w)) ∧
       match result_of (m w) with
       | Ok a => R a
       | Raised e => Q e
       end.

Definition any {A} : A → Prop := λ _, True.

(** ** States *)

Definition with_clients (l : list sock) (w : world) : world :=
  {| sel := sel w; clients := l; closed := closed w; next_obj := next_obj w |}.

(** The state after a connection has been accepted and registered. *)
Definition accepted (w : world) : world :=
  {| sel := {[next_obj w]} ∪ sel w; clients := clients w ++ [next_obj w];
     closed := closed w; next_obj := S (next_obj w) |}.

(** The state after [s] has been closed, unregistered and removed. *)
Definition evicted (s : sock) (w : world) : world :=
  {| sel := sel w ∖ {[s]}; clients := filter (λ x, x ≠ s) (clients w);
     closed := {[s]} ∪ closed w; next_obj := next_obj w |}.

(** The invariant of the loop: the listening socket is registered; the
    connections in [clients] are the other registered objects, each once;
    no registered object is closed; registered and closed objects exist
    already. *)
Record consistent (w : world) : Prop := Consistent {
  server_registered : server ∈ sel w;
  clients_registered : ∀ c, c ∈ clients w ↔ c ∈ sel w ∧ c ≠ server;
  registered_open : ∀ c, c ∈ sel w → c ∉ closed w;
  registered_old : ∀ c, c ∈ sel w → c < next_obj w;
  closed_old : ∀ c, c ∈ closed w → c < next_obj w;
  clients_once : NoDup (clients w)
}.


(** ** Concrete inputs and states *)

(** A [recv] that fills the whole chunk. *)
Definition full_chunk : bytes := replicate RECV_MAX x61.

Definition peer (port : Z) : address := ("127.0.0.1"%string, port).

(** The listening socket is ready and [accept] succeeds. *)
Definition connects (port : Z) : ready :=
  {| fileobj := server; on_accept := Accepted (peer port); on_recv := [] |}.

(** The connection [s] is ready and its [recv] calls yield [script]. *)
Definition yields (s : sock) (script : list recv_result) : ready :=
  {| fileobj := s; on_accept := AcceptRaise BlockingIOError;
     on_recv := script |}.

Definition sends_fine : sock → option exn_class := λ _, None.

(** The state after the first connection has been accepted. *)
Definition one_client : world :=
  {| sel := {[1; server]}; clients := [1]; closed := ∅; next_obj := 2 |}.

(** Two clients connect during the first poll. *)
Definition first_poll : poll :=
  {| events := [connects 50001%Z; connects 50002%Z]; on_send := sends_fine |}.

Definition two_clients : world :=
  {| sel := {[2; 1; server]}; clients := [1; 2]; closed := ∅; next_obj := 3 |}.

(** Then the first one closes its side. *)
Definition second_poll : poll :=
  {| events := [yields 1 [Recv []]]; on_send := sends_fine |}.

Definition second_left : world := evicted 1 two_clients.

(** ** Further vocabulary *)

(** The actions of the loop of [read]: [recv] calls and prints. *)
Definition reads_or_prints (a : action) : Prop :=
  match a with
  | ARecv _ _ | APrint _ => True
  | _ => False
  end.

(** The actions that are no call on an existing connection. *)
Definition no_client_call (a : action) : Prop :=
  match a with
  | ARecv _ _ | AClose _ | AUnregister _ | ASend _ _ => False
  | _ => True
  end.

(** [clients] lists existing objects in the order of their creation. *)
Definition in_accept_order (w : world) : Prop :=
  StronglySorted lt (clients w) ∧ Forall (λ c, c < next_obj w) (clients w).

(** The listening socket is ready but [accept] finds no pending
    connection any more. *)
Definition refuses : ready :=
  {| fileobj := server; on_accept := AcceptRaise BlockingIOError;
     on_recv := [] |}.

(** Every [send] succeeds except those to [s], whose peer is gone. *)
Definition broken_pipe_on (s : sock) : sock → option exn_class :=
  λ c, if decide (c = s) then Some BrokenPipeError else None.

(** One connection arrives during a poll. *)
Definition arrival (port : Z) : poll :=
  {| events := [connects port]; on_send := sends_fine |}.






(** * Properties *)

(** ** Running the monad *)

Lemma bind_run {A B} (m : M A) (f : A → M B) (w : world) :
  (m ≫= f) w =
  match m w with
  | (Ok a, w1, t1) => let '(r, w2, t2) := f a w1 in (r, w2, t1 ++ t2)
  | (Raised e, w1, t1) => (Raised e, w1, t1)
  end.
Proof. reflexivity. Qed.

Lemma bind_ok {A B} (m : M A) (f : A → M B) w a w1 t1 :
  m w = (Ok a, w1, t1) →
  (m ≫= f) w = let '(r, w2, t2) := f a w1 in (r, w2, t1 ++ t2).
Proof. intros H. rewrite bind_run, H. reflexivity. Qed.

Lemma bind_raised {A B} (m : M A) (f : A → M B) w e w1 t1 :
  m w = (Raised e, w1, t1) → (m ≫= f) w = (Raised e, w1, t1).
Proof. intros H. rewrite bind_run, H. reflexivity. Qed.

Lemma bind_inv {A B} (m : M A) (f : A → M B) w r w' t :
  (m ≫= f) w = (r, w', t) →
  (∃ a w1 t1 t2,
      m w = (Ok a, w1, t1) ∧ f a w1 = (r, w', t2) ∧ t = t1 ++ t2) ∨
  (∃ e, m w = (Raised e, w', t) ∧ r = Raised e).
Proof.
  rewrite bind_run. destruct (m w) as [[[a|e] w1] t1].
  - destruct (f a w1) as [[r2 w2] t2] eqn:Hf. intros [= <- <- <-].
    left. by exists a, w1, t1, t2.
  - intros [= <- <- <-]. right. by exists e.
Qed.

Lemma RECV_MAX_pos : 0 < RECV_MAX.
Proof. unfold RECV_MAX. lia. Qed.

(** ** [read] *)

Lemma iteration_full s d db w :
  s ∉ closed w → RECV_MAX ≤ length d →
  iteration s (Recv d) db w = (Ok (Continue (db ++ d)), w, [ARecv s (Recv d)]).
Proof.
  intros Hs Hd. pose proof RECV_MAX_pos.
  unfold iteration, attempt, recv. rewrite bind_run.
  rewrite decide_False by done. simpl.
  rewrite bool_decide_eq_false_2 by lia.
  rewrite bool_decide_eq_false_2 by lia. reflexivity.
Qed.

Lemma recv_loop_full s w pre tail db :
  s ∉ closed w → Forall (λ d : bytes, RECV_MAX ≤ length d) pre →
  recv_loop s ((Recv <$> pre) ++ tail) db w =
  let '(r, w', t) := recv_loop s tail (db ++ concat pre) w in
  (r, w', (ARecv s <$> (Recv <$> pre)) ++ t).
Proof.
  intros Hs Hpre. revert db. induction Hpre as [|d pre Hd _ IH]; intros db.
  - simpl. rewrite app_nil_r. by destruct (recv_loop s tail db w) as [[??]?].
  - cbn [fmap list_fmap app recv_loop hd].
    rewrite (bind_ok _ _ _ _ _ _ (iteration_full s d db w Hs Hd)).
    change (list_fmap _ _ Recv pre) with (Recv <$> pre).
    rewrite IH. cbn [concat]. rewrite <- app_assoc.
    by destruct (recv_loop s tail (db ++ d ++ concat pre) w) as [[??]?].
Qed.

(** A turn of the loop never escapes with an exception, leaves the state
    alone, and appends to [db] exactly what its [recv] returned. *)
Lemma iteration_spec s r db w :
  ∃ step t,
    iteration s r db w = (Ok step, w, t) ∧ turn_db step = db ++ received t.
Proof.
  unfold iteration, attempt, recv. rewrite bind_run.
  destruct (decide (s ∈ closed w)).
  { eexists _, _. split; [reflexivity|]. unfold received. simpl.
    by rewrite app_nil_r. }
  destruct r as [data|c]; simpl.
  - repeat case_bool_decide; eexists _, _; (split; [reflexivity|]);
      unfold received; simpl; by rewrite !app_nil_r.
  - eexists _, _. split; [reflexivity|]. unfold received. simpl.
    by rewrite app_nil_r.
Qed.

Lemma received_app t1 t2 : received (t1 ++ t2) = received t1 ++ received t2.
Proof. unfold received. by rewrite omap_app, concat_app. Qed.

Lemma recv_loop_spec s script db w :
  ∃ thrown has_eof t,
    recv_loop s script db w = (Ok (thrown, has_eof, db ++ received t), w, t).
Proof.
  revert db. induction script as [|r script IH]; intros db.
  - cbn [recv_loop hd].
    destruct (iteration_spec s (RecvRaise BlockingIOError) db w)
      as (step & t & Hit & Hdb).
    rewrite (bind_ok _ _ _ _ _ _ Hit).
    destruct step; simpl in *; subst; eexists _, _, _;
      by rewrite app_nil_r.
  - cbn [recv_loop hd].
    destruct (iteration_spec s r db w) as (step & t & Hit & Hdb).
    rewrite (bind_ok _ _ _ _ _ _ Hit).
    destruct step as [db'|thrown has_eof db']; simpl in Hdb; subst db'.
    + destruct (IH (db ++ received t)) as (thrown & has_eof & t' & ->).
      exists thrown, has_eof, (t ++ t').
      by rewrite received_app, app_assoc.
    + exists thrown, has_eof, t. simpl. by rewrite app_nil_r.
Qed.

Lemma run_clause_spec c has_eof w :
  ∃ b o, run_clause c has_eof w = (Ok b, w, [APrint (Line o)]).
Proof. destruct c; eexists _, _; reflexivity. Qed.

(** The end of [read]: [if has_eof: socket.close()], then the return. *)
Lemma read_end s (b : bool) (db : bytes) w :
  ((if b then close s else mret ());; mret (b, db)) w =
  (Ok (b, db), if b then world_of (close s w) else w,
   if b then [AClose s] else []).
Proof. by destruct b. Qed.

(** [read] returns the bytes its [recv] calls returned, in order; it only
    ever adds [s] to the closed handles, and does so exactly when it
    reports end-of-stream. *)
Lemma read_spec s script w eof db w' t :
  read s script w = (Ok (eof, db), w', t) →
  db = received t ∧
  w' = (if eof then world_of (close s w) else w) ∧
  (eof = true → ∃ t', t = t' ++ [AClose s]).
Proof.
  unfold read. rewrite bind_run.
  destruct (recv_loop_spec s script [] w) as (thrown & has_eof & t0 & ->).
  cbn [app]. rewrite bind_run.
  destruct thrown as [e|]; [destruct (select_clause e) as [c|]|].
  - destruct (run_clause_spec c has_eof w) as (b & o & ->).
    rewrite read_end. intros [= <- <- <- <-].
    rewrite !received_app. split; [|split; [done|]].
    + destruct b; unfold received at 2 3; simpl; by rewrite !app_nil_r.
    + intros ->. exists (t0 ++ [APrint (Line o)]). by rewrite <- app_assoc.
  - intros [=].
  - change (@mret M _ bool has_eof w) with (Ok has_eof, w, @nil action).
    cbv beta iota. rewrite read_end. intros [= <- <- <- <-].
    rewrite !received_app. split; [|split; [done|]].
    + destruct has_eof; unfold received at 2; simpl; by rewrite !app_nil_r.
    + intros ->. by exists t0.
Qed.

(** How the loop leaves on each kind of answer, from an open handle. *)
Lemma recv_loop_eof s rest db w :
  s ∉ closed w →
  recv_loop s (Recv [] :: rest) db w =
  (Ok (None, true, db), w,
   [ARecv s (Recv []); APrint (Line "EOF condition reached")]).
Proof.
  intros Hs. cbn [recv_loop hd]. unfold iteration, attempt, recv.
  rewrite !bind_run, decide_False by done. simpl. by rewrite app_nil_r.
Qed.

Lemma recv_loop_short s d rest db w :
  s ∉ closed w → 0 < length d < RECV_MAX →
  recv_loop s (Recv d :: rest) db w =
  (Ok (None, false, db ++ d), w, [ARecv s (Recv d)]).
Proof.
  intros Hs Hd. cbn [recv_loop hd]. unfold iteration, attempt, recv.
  rewrite !bind_run, decide_False by done. cbv beta iota.
  rewrite bool_decide_eq_false_2 by lia.
  rewrite bool_decide_eq_true_2 by lia. reflexivity.
Qed.

Lemma recv_loop_raise s c rest db w :
  s ∉ closed w →
  recv_loop s (RecvRaise c :: rest) db w =
  (Ok (Some (Error c), false, db), w, [ARecv s (RecvRaise c)]).
Proof.
  intros Hs. cbn [recv_loop hd]. unfold iteration, attempt, recv.
  by rewrite !bind_run, decide_False by done.
Qed.

Section ReadAfterFullChunks.
Context (s : sock) (w : world) (pre : list bytes) (rest : list recv_result).
Hypothesis Hopen : s ∉ closed w.
Hypothesis Hfull : Forall (λ d : bytes, RECV_MAX ≤ length d) pre.

Lemma read_zero :
  read s ((Recv <$> pre) ++ Recv [] :: rest) w =
  (Ok (true, concat pre), world_of (close s w),
   (ARecv s <$> (Recv <$> pre)) ++ [ARecv s (Recv []); APrint (Line "EOF condition reached");
              AClose s]).
Proof.
  unfold read. rewrite bind_run, recv_loop_full by done.
  rewrite recv_loop_eof by done. cbn [app]. simpl.
  by rewrite <- !app_assoc.
Qed.

Lemma read_short (d : bytes) :
  0 < length d < RECV_MAX →
  read s ((Recv <$> pre) ++ Recv d :: rest) w =
  (Ok (false, concat pre ++ d), w, (ARecv s <$> (Recv <$> pre)) ++ [ARecv s (Recv d)]).
Proof.
  intros Hd. unfold read. rewrite bind_run, recv_loop_full by done.
  rewrite recv_loop_short by done. cbn [app]. simpl.
  by rewrite <- !app_assoc.
Qed.

Lemma read_would_block :
  read s ((Recv <$> pre) ++ RecvRaise BlockingIOError :: rest) w =
  (Ok (false, concat pre), w,
   (ARecv s <$> (Recv <$> pre)) ++ [ARecv s (RecvRaise BlockingIOError);
              APrint (Line "Got a BlockingIOError in read() call.")]).
Proof.
  unfold read. rewrite bind_run, recv_loop_full by done.
  rewrite recv_loop_raise by done. cbn [app]. simpl.
  by rewrite <- !app_assoc.
Qed.

(** Nothing is pending after the full chunks: the next [recv] would
    block. *)
Lemma read_drained :
  read s (Recv <$> pre) w =
  (Ok (false, concat pre), w,
   (ARecv s <$> (Recv <$> pre)) ++ [ARecv s (RecvRaise BlockingIOError);
              APrint (Line "Got a BlockingIOError in read() call.")]).
Proof.
  rewrite <- (app_nil_r (Recv <$> pre)) at 1.
  unfold read. rewrite bind_run, recv_loop_full by done.
  cbn [recv_loop hd]. unfold iteration, attempt, recv.
  rewrite !bind_run, decide_False by done. simpl.
  by rewrite <- !app_assoc.
Qed.
End ReadAfterFullChunks.

(** C2. Every call of [read] on an open non-blocking connection: after any
    number of full chunks, a [recv] returning zero bytes stops the loop with
    end-of-stream true, one returning fewer than [RECV_MAX] bytes stops it
    with end-of-stream false, one that would block stops it with
    end-of-stream false and everything accumulated so far; whatever the
    [recv] calls yield, the buffer returned is the in-order concatenation
    of the bytes they returned. *)
Theorem read_outcomes (s : sock) (w : world) (pre : list bytes)
    (rest : list recv_result) :
  s ∉ closed w →
  Forall (λ d : bytes, RECV_MAX ≤ length d) pre →
  let chunks := ARecv s <$> (Recv <$> pre) in
  read s ((Recv <$> pre) ++ Recv [] :: rest) w =
    (Ok (true, concat pre), world_of (close s w),
     chunks ++ [ARecv s (Recv []); APrint (Line "EOF condition reached");
                AClose s])
  ∧ (∀ d : bytes, 0 < length d < RECV_MAX →
     read s ((Recv <$> pre) ++ Recv d :: rest) w =
       (Ok (false, concat pre ++ d), w, chunks ++ [ARecv s (Recv d)]))
  ∧ read s ((Recv <$> pre) ++ RecvRaise BlockingIOError :: rest) w =
      (Ok (false, concat pre), w,
       chunks ++ [ARecv s (RecvRaise BlockingIOError);
                  APrint (Line "Got a BlockingIOError in read() call.")])
  ∧ (∀ script eof db w' t,
     read s script w = (Ok (eof, db), w', t) → db = received t).
Proof.
  intros Hs Hpre chunks. split; [|split; [|split]].
  - by apply read_zero.
  - intros d Hd. by apply read_short.
  - by apply read_would_block.
  - intros script eof db w' t H. by apply read_spec in H as [? _].
Qed.

Lemma read_outcomes_witness :
  read 1 ([Recv full_chunk; Recv []]) boot =
    (Ok (true, full_chunk), world_of (close 1 boot),
     [ARecv 1 (Recv full_chunk); ARecv 1 (Recv []);
      APrint (Line "EOF condition reached"); AClose 1])
  ∧ read 1 [Recv full_chunk; Recv [x62]] boot =
      (Ok (false, full_chunk ++ [x62]), boot,
       [ARecv 1 (Recv full_chunk); ARecv 1 (Recv [x62])])
  ∧ read 1 [Recv full_chunk; RecvRaise BlockingIOError] boot =
      (Ok (false, full_chunk), boot,
       [ARecv 1 (Recv full_chunk); ARecv 1 (RecvRaise BlockingIOError);
        APrint (Line "Got a BlockingIOError in read() call.")]).
Proof.
  assert (H1 : 1 ∉ closed boot) by (vm_compute; intros H; inversion H).
  assert (H2 : Forall (λ d : bytes, RECV_MAX ≤ length d) [full_chunk]).
  { constructor; [|constructor]. vm_compute. reflexivity. }
  destruct (read_outcomes 1 boot [full_chunk] [] H1 H2) as (Ha & Hb & Hc & _).
  split; [|split].
  - rewrite <- (app_nil_r full_chunk) at 2. exact Ha.
  - rewrite <- (app_nil_r full_chunk) at 2. apply (Hb [x62]). simpl.
    unfold RECV_MAX. lia.
  - rewrite <- (app_nil_r full_chunk) at 2. exact Hc.
Defined.

(** *** The [except] clauses *)

(** [ConnectionResetError] is a subclass of [OSError], and the clause for
    [OSError] comes first: no exception ever reaches the third clause. *)
Lemma reset_clause_never_selected (e : exn) :
  select_clause e ≠ Some ExceptConnectionResetError.
Proof. destruct e as [[]|]; vm_compute; discriminate. Qed.

Lemma reset_selects_oserror_clause :
  select_clause (Error ConnectionResetError) = Some ExceptOSError.
Proof. reflexivity. Qed.

(** A [recv] on a handle this program has closed. *)
Lemma recv_loop_closed s script db w :
  s ∈ closed w →
  recv_loop s script db w =
  (Ok (Some (Error OSError), false, db), w, [ARecv s (RecvRaise OSError)]).
Proof.
  intros Hs. destruct script; cbn [recv_loop hd];
    unfold iteration, attempt, recv; by rewrite !bind_run, decide_True by done.
Qed.

Lemma read_oserror_clause s script w e db t0 :
  recv_loop s script [] w = (Ok (Some e, false, db), w, t0) →
  select_clause e = Some ExceptOSError →
  read s script w =
  (Ok (true, db), world_of (close s w),
   t0 ++ [APrint (Line "Got an OSError in read() call."); AClose s]).
Proof.
  intros Hloop He. unfold read. rewrite bind_run, Hloop. cbn [app].
  rewrite bind_run, He. reflexivity.
Qed.

(** What [read] does when its first [recv] raises an [OSError] that is
    not a [BlockingIOError]. *)
Lemma read_fault s c rest w :
  select_clause (Error c) = Some ExceptOSError →
  result_of (read s (RecvRaise c :: rest) w) = Ok (true, []) ∧
  printed (trace_of (read s (RecvRaise c :: rest) w)) =
    [Line "Got an OSError in read() call."].
Proof.
  intros Hc. destruct (decide (s ∈ closed w)) as [Hs|Hs].
  - by rewrite (read_oserror_clause _ _ _ _ _ _
                  (recv_loop_closed s _ [] w Hs) eq_refl).
  - by rewrite (read_oserror_clause _ _ _ _ _ _
                  (recv_loop_raise s c rest [] w Hs) Hc).
Qed.

(** C8 (as the code has it). A [recv] that raises [ConnectionResetError]
    makes [read] return end-of-stream true, as a clean end-of-stream does,
    but the clause that runs is the one for [OSError]: the diagnostic is
    the one of any other I/O fault, and the reset-specific line is never
    printed. *)
Theorem reset_runs_oserror_clause (s : sock) (w : world)
    (rest : list recv_result) :
  let x := read s (RecvRaise ConnectionResetError :: rest) w in
  result_of x = Ok (true, []) ∧
  printed (trace_of x) = [Line "Got an OSError in read() call."] ∧
  printed (trace_of x) =
    printed (trace_of (read s (RecvRaise OSError :: rest) w)) ∧
  Line "Got a ConnectionResetError in read() call." ∉ printed (trace_of x).
Proof.
  intros x.
  destruct (read_fault s ConnectionResetError rest w eq_refl) as [Hr Hp].
  destruct (read_fault s OSError rest w eq_refl) as [_ Hp'].
  subst x. rewrite Hr, Hp, Hp'. repeat split.
  intros H. apply list_elem_of_singleton in H. discriminate H.
Qed.

(** ** Handling one event *)

Lemma handle_event_client ev w :
  fileobj ev ≠ server →
  handle_event ev w =
  ('(eof, data) ← read (fileobj ev) (on_recv ev);
   (if negb eof then write (fileobj ev) data;; print (Got data) else mret ());;
   (if eof : bool then
      unregister (fileobj ev);;
      l ← get_clients;
      remove_while (length l) (fileobj ev)
    else mret ())) w.
Proof. intros Hs. unfold handle_event. by rewrite decide_False. Qed.

(** When [read] reports data and no end-of-stream, the next statement is
    [s.write(data)], and the lookup of [write] on the socket fails. *)
Lemma handle_event_data ev w data w1 t :
  fileobj ev ≠ server →
  read (fileobj ev) (on_recv ev) w = (Ok (false, data), w1, t) →
  handle_event ev w = (Raised (NoAttribute (fileobj ev) "write"), w1, t).
Proof.
  intros Hs Hread. rewrite handle_event_client, bind_run, Hread by done.
  simpl. by rewrite app_nil_r.
Qed.

Lemma one_client_reached a :
  handle_event (Ready server (Accepted a) []) boot =
  (Ok (), one_client,
   [AAccept 1 a; ASetblocking 1; ARegister 1; APrint (GotSocket 1 a)]).
Proof. reflexivity. Qed.

(** C1 (as the code has it). A connected client sends the bytes
    [b :: B] in one write and [recv] returns them: the handling of the
    readiness event ends in the [AttributeError] of [s.write], with
    nothing written or sent to the connection. *)
Theorem echo_write_raises (b : byte) (B : bytes) (a : accept_result) :
  let x := handle_event (Ready 1 a [Recv (b :: B)]) one_client in
  result_of x = Raised (NoAttribute 1 "write") ∧
  trace_of x = ARecv 1 (Recv (b :: B)) ::
    (if decide (length (b :: B) < RECV_MAX) then []
     else [ARecv 1 (RecvRaise BlockingIOError);
           APrint (Line "Got a BlockingIOError in read() call.")]) ∧
  sends (trace_of x) = [].
Proof.
  assert (Hopen : 1 ∉ closed one_client) by set_solver.
  destruct (decide (length (b :: B) < RECV_MAX)) as [Hlt|Hge].
  - pose proof (read_short 1 one_client [] [] Hopen (Forall_nil_2 _)
                  (b :: B)) as Hshort.
    simpl in Hshort. intros x. subst x.
    erewrite handle_event_data; [|done|apply Hshort; simpl in *; lia].
    done.
  - assert (Hfull : Forall (λ d : bytes, RECV_MAX ≤ length d) [b :: B]).
    { constructor; [lia|constructor]. }
    intros x. subst x.
    erewrite handle_event_data; [|done|].
    2:{ exact (read_drained 1 one_client [b :: B] Hopen Hfull). }
    done.
Qed.

(** C10 (as the code has it). The first [recv] would block: [read]
    returns end-of-stream false with the empty buffer, the event loop does
    not skip the echo statement, and [s.write(b'')] fails on the lookup of
    [write]: no write call is made. *)
Theorem empty_echo_write_raises (a : accept_result) :
  read 1 [RecvRaise BlockingIOError] one_client =
    (Ok (false, []), one_client,
     [ARecv 1 (RecvRaise BlockingIOError);
      APrint (Line "Got a BlockingIOError in read() call.")]) ∧
  handle_event (Ready 1 a [RecvRaise BlockingIOError]) one_client =
    (Raised (NoAttribute 1 "write"), one_client,
     [ARecv 1 (RecvRaise BlockingIOError);
      APrint (Line "Got a BlockingIOError in read() call.")]).
Proof.
  assert (Hopen : 1 ∉ closed one_client) by set_solver.
  pose proof (read_would_block 1 one_client [] [] Hopen (Forall_nil_2 _))
    as Hblock.
  split; [exact Hblock|]. by eapply handle_event_data.
Qed.

(** ** What a computation may do *)

Ltac one_call :=
  split; [first [by apply Forall_nil_2 | by apply Forall_singleton]
         | cbn; first [exact I | auto]].

Section Behaves.
Context (P : action → Prop) (Q : exn → Prop).

Lemma behaves_weaken {A} (R R' : A → Prop) m :
  behaves P Q R m → (∀ a, R a → R' a) → behaves P Q R' m.
Proof.
  intros Hm HR w. destruct (Hm w) as [Ht Hr]. split; [done|].
  destruct (result_of (m w)); auto.
Qed.

Lemma behaves_ret {A} (R : A → Prop) (a : A) : R a → behaves P Q R (mret a).
Proof. intros Ha w. split; [constructor|done]. Qed.

Lemma behaves_raise {A} (R : A → Prop) e : Q e → behaves P Q R (raise e).
Proof. intros He w. split; [constructor|done]. Qed.

Lemma behaves_emit a : P a → behaves P Q any (emit a).
Proof. intros Ha w. split; [by apply Forall_singleton|done]. Qed.

Lemma behaves_bind {A B} (R : A → Prop) (R' : B → Prop) m (f : A → M B) :
  behaves P Q R m → (∀ a, R a → behaves P Q R' (f a)) →
  behaves P Q R' (m ≫= f).
Proof.
  intros Hm Hf w. rewrite bind_run. destruct (Hm w) as [Ht Hr].
  destruct (m w) as [[[a|e] w1] t1]; [|done].
  destruct (Hf a Hr w1) as [Ht' Hr'].
  destruct (f a w1) as [[r w2] t2]. unfold trace_of, result_of in *.
  simpl in *. split; [by apply Forall_app|done].
Qed.

(** [try:] turns the exception into a value. *)
Lemma behaves_attempt {A} (Q' : exn → Prop) (R : A → Prop) (m : M A) :
  behaves P Q' R m →
  behaves P Q (λ x, match x with inl e => Q' e | inr a => R a end)
    (attempt m).
Proof.
  intros Hm w. destruct (Hm w) as [Ht Hr]. unfold attempt.
  by destruct (m w) as [[[a|e] w1] t1].
Qed.

Lemma behaves_get_clients : behaves P Q any get_clients.
Proof. intros w. split; [constructor|done]. Qed.

Lemma behaves_set_clients l : behaves P Q any (set_clients l).
Proof. intros w. split; [constructor|done]. Qed.

Lemma behaves_close s : P (AClose s) → behaves P Q any (close s).
Proof. intros HP w. split; [by apply Forall_singleton|done]. Qed.

Hypothesis errors : ∀ c, Q (Error c).

Lemma behaves_clients_remove s : behaves P Q any (clients_remove s).
Proof.
  eapply behaves_bind; [apply behaves_get_clients|]. intros l _.
  destruct (decide (s ∈ l));
    [apply behaves_set_clients|by apply behaves_raise].
Qed.

Lemma behaves_remove_while n s : behaves P Q any (remove_while n s).
Proof.
  induction n as [|n IH]; [by apply behaves_ret|].
  cbn [remove_while]. eapply behaves_bind; [apply behaves_get_clients|].
  intros l _. destruct (decide (s ∈ l)); [|by apply behaves_ret].
  eapply behaves_bind; [by apply behaves_clients_remove|done].
Qed.

Lemma behaves_recv s r :
  (∀ r', P (ARecv s r')) → behaves P Q any (recv s r).
Proof.
  intros HP w. unfold recv.
  destruct (decide (s ∈ closed w)); [|destruct r];
    one_call.
Qed.

Lemma behaves_send s data r :
  P (ASend s data) → behaves P Q any (send s data r).
Proof.
  intros HP w. unfold send.
  destruct (decide (s ∈ closed w)); [|destruct r];
    one_call.
Qed.

Lemma behaves_accept r :
  (∀ c a, P (AAccept c a)) → behaves P Q any (accept r).
Proof.
  intros HP w. destruct r;
    one_call.
Qed.

Lemma behaves_register s : P (ARegister s) → behaves P Q any (register s).
Proof.
  intros HP w. unfold register. repeat case_decide;
    one_call.
Qed.

Lemma behaves_unregister s :
  P (AUnregister s) → behaves P Q any (unregister s).
Proof.
  intros HP w. unfold unregister. repeat case_decide;
    one_call.
Qed.

End Behaves.

Section BehavesProgram.
Context (P : action → Prop) (Q : exn → Prop).
Hypothesis errors : ∀ c, Q (Error c).
Hypothesis prints : ∀ o, P (APrint o).

Lemma behaves_print o : behaves P Q any (print o).
Proof. by apply behaves_emit. Qed.

Lemma behaves_iteration s r db :
  (∀ r', P (ARecv s r')) → behaves P Q turn_error (iteration s r db).
Proof.
  intros HP. unfold iteration.
  eapply behaves_bind.
  { apply (behaves_attempt P Q is_error any).
    apply behaves_recv; [|done]. intros c. by exists c. }
  intros [e|data] Hx; [by apply behaves_ret|].
  repeat case_bool_decide; try by apply behaves_ret.
  eapply behaves_bind; [apply behaves_print|]. intros _ _.
  by apply behaves_ret.
Qed.

Lemma behaves_recv_loop s script db :
  (∀ r, P (ARecv s r)) → behaves P Q kept_error (recv_loop s script db).
Proof.
  intros HP. revert db. induction script as [|r script IH]; intros db;
    cbn [recv_loop hd].
  all: eapply behaves_bind; [by apply behaves_iteration|].
  all: intros [db'|[e|] has_eof db'] Hstep; try by apply behaves_ret.
  apply IH.
Qed.

Lemma behaves_read s script :
  (∀ r, P (ARecv s r)) → P (AClose s) → behaves P Q any (read s script).
Proof.
  intros HPr HPc. unfold read.
  eapply behaves_bind; [by apply behaves_recv_loop|].
  intros [[thrown has_eof] db] Hkept.
  eapply (behaves_bind _ _ any).
  { destruct thrown as [e|]; [|by apply behaves_ret].
    destruct (select_clause e) as [c|].
    - destruct c; (eapply behaves_bind; [apply behaves_print|]);
        intros _ _; by apply behaves_ret.
    - apply behaves_raise. destruct Hkept as [c ->]. apply errors. }
  intros b _. eapply behaves_bind; [|intros _ _; by apply behaves_ret].
  destruct b; [by apply behaves_close|by apply behaves_ret].
Qed.

Lemma behaves_broadcast on_send l :
  (∀ c, P (ASend c PAYLOAD)) → behaves P Q any (broadcast on_send l).
Proof.
  intros HP. induction l as [|c l IH]; [by apply behaves_ret|].
  cbn [broadcast]. eapply behaves_bind; [by apply behaves_send|done].
Qed.
End BehavesProgram.

(** ** The actions of one event, and of one turn of the main loop *)

Section HandleEvent.
Context (P : action → Prop) (Q : exn → Prop).
Hypothesis errors : ∀ c, Q (Error c).
Hypothesis prints : ∀ o, P (APrint o).

Lemma behaves_handle_client ev :
  fileobj ev ≠ server →
  (∀ r, P (ARecv (fileobj ev) r)) → P (AClose (fileobj ev)) →
  P (AUnregister (fileobj ev)) → Q (NoAttribute (fileobj ev) "write") →
  behaves P Q any (handle_event ev).
Proof.
  intros Hs HPr HPc HPu HQ w. rewrite handle_event_client by done.
  revert w. eapply behaves_bind; [by apply behaves_read|].
  intros [eof data] _. eapply (behaves_bind _ _ any).
  - destruct eof; simpl; [by apply behaves_ret|].
    eapply (behaves_bind _ _ any); [by apply behaves_raise|].
    intros _ _. by apply behaves_print.
  - intros _ _. destruct eof; [|by apply behaves_ret].
    eapply behaves_bind; [by apply behaves_unregister|]. intros _ _.
    eapply behaves_bind; [apply behaves_get_clients|]. intros l _.
    by apply behaves_remove_while.
Qed.

Lemma behaves_handle_accept ev :
  fileobj ev = server →
  (∀ c a, P (AAccept c a)) → (∀ c, P (ASetblocking c)) →
  (∀ c, P (ARegister c)) →
  behaves P Q any (handle_event ev).
Proof.
  intros Hs HPa HPs HPr. unfold handle_event. rewrite decide_True by done.
  eapply behaves_bind; [by apply behaves_accept|].
  intros [connection a] _.
  eapply behaves_bind; [by apply behaves_emit|]. intros _ _.
  eapply behaves_bind; [by apply behaves_register|]. intros _ _.
  eapply behaves_bind; [apply behaves_get_clients|]. intros l _.
  eapply behaves_bind; [apply behaves_set_clients|]. intros _ _.
  by apply behaves_print.
Qed.
End HandleEvent.

(** No step of the handling of an event is a [send]. *)
Lemma handle_event_no_send ev :
  behaves (λ a, ¬ is_send a) any any (handle_event ev).
Proof.
  destruct (decide (fileobj ev = server)).
  - apply behaves_handle_accept; first [done | intros; cbn; tauto].
  - apply behaves_handle_client; first [done | intros; cbn; tauto].
Qed.

Lemma process_events_no_send evs :
  behaves (λ a, ¬ is_send a) any any (process_events evs).
Proof.
  induction evs as [|ev evs IH]; [by apply behaves_ret|].
  cbn [process_events]. eapply behaves_bind; [apply handle_event_no_send|done].
Qed.

(** The broadcast leaves the state alone and calls [send] with the payload
    on the clients in list order, up to the first [send] that raises. *)
Lemma broadcast_spec on_send l w :
  world_of (broadcast on_send l w) = w ∧
  ∃ k, trace_of (broadcast on_send l w) = (λ c, ASend c PAYLOAD) <$> take k l.
Proof.
  induction l as [|c l [IHw [k IHt]]]; [split; [done|by exists 0]|].
  cbn [broadcast]. rewrite bind_run. unfold send.
  destruct (decide (c ∈ closed w)); [|destruct (on_send c)].
  - split; [done|by exists 1].
  - split; [done|by exists 1].
  - destruct (broadcast on_send l w) as [[r w2] t2].
    unfold world_of, trace_of in *. simpl in *. subst.
    split; [done|]. by exists (S k).
Qed.

Lemma broadcast_ok on_send l w w' t :
  broadcast on_send l w = (Ok (), w', t) →
  w' = w ∧ t = (λ c, ASend c PAYLOAD) <$> l.
Proof.
  revert w t. induction l as [|c l IH]; intros w t.
  - by intros [= <- <-].
  - cbn [broadcast]. intros H. apply bind_inv in H as
      [([] & w1 & t1 & t2 & Hsend & Hrest & ->)|(e & _ & [=])].
    apply IH in Hrest as [-> ->]. unfold send in Hsend.
    destruct (decide (c ∈ closed w)); [done|].
    destruct (on_send c); [done|]. by injection Hsend as <- <-.
Qed.

(** C7. In every turn of the main loop the trace is that of the handling
    of all the events the poll returned, followed by that of the
    broadcast: the first holds no [send], the second nothing but [send]s,
    and there is a second part only when every event has been handled. *)
Theorem broadcast_after_events (p : poll) (w : world) :
  ∃ t_bc,
    trace_of (cycle p w) = trace_of (process_events (events p) w) ++ t_bc ∧
    Forall (λ a, ¬ is_send a) (trace_of (process_events (events p) w)) ∧
    Forall is_send t_bc ∧
    (t_bc ≠ [] → result_of (process_events (events p) w) = Ok ()).
Proof.
  destruct (process_events_no_send (events p) w) as [Hev _].
  unfold cycle. rewrite bind_run.
  destruct (process_events (events p) w) as [[[[]|e] w1] t1].
  - rewrite bind_run. cbn.
    destruct (broadcast_spec (on_send p) (clients w1) w1) as [_ [k Hk]].
    destruct (broadcast (on_send p) (clients w1) w1) as [[r w2] t2].
    unfold trace_of in *. simpl in *. subst t2.
    eexists. repeat split; [done|].
    apply Forall_fmap, Forall_true. by intros c.
  - exists []. cbn. by rewrite app_nil_r.
Qed.

(** ** The effect of one event on the state *)

Lemma with_clients_same w : with_clients (clients w) w = w.
Proof. by destruct w. Qed.

Lemma remove_length s l : s ∈ l → S (length (remove s l)) = length l.
Proof.
  induction l as [|x l IH]; [by intros ?%elem_of_nil|].
  intros Hs. cbn [remove]. destruct (decide (x = s)); [done|].
  apply elem_of_cons in Hs as [->|Hs]; [done|]. simpl. by rewrite IH.
Qed.

Lemma remove_filter s l :
  filter (λ x, x ≠ s) (remove s l) = filter (λ x, x ≠ s) l.
Proof.
  induction l as [|x l IH]; [done|]. cbn [remove].
  destruct (decide (x = s)) as [->|Hx].
  - by rewrite filter_cons_False by (by intros ?).
  - by rewrite !filter_cons_True, IH by done.
Qed.

Lemma filter_absent (s : sock) (l : list sock) :
  s ∉ l → filter (λ x, x ≠ s) l = l.
Proof.
  induction l as [|x l IH]; [done|]. intros Hs.
  apply not_elem_of_cons in Hs as [Hx Hs].
  rewrite filter_cons_True by done. by rewrite IH.
Qed.

(** The loop [while s in clients: clients.remove(s)] ends within the
    turns given, and leaves the list without any occurrence of [s]. *)
Lemma remove_while_spec n s w :
  length (clients w) ≤ n →
  remove_while n s w =
  (Ok (), with_clients (filter (λ x, x ≠ s) (clients w)) w, []).
Proof.
  revert w. induction n as [|n IH]; intros w Hn.
  - destruct w as [? [|??] ? ?]; [done|simpl in Hn; lia].
  - cbn [remove_while]. rewrite bind_run. cbn [get_clients].
    destruct (decide (s ∈ clients w)) as [Hs|Hs].
    + rewrite bind_run. unfold clients_remove. rewrite bind_run.
      cbn [get_clients]. rewrite decide_True by done. cbn [set_clients app].
      rewrite IH by (pose proof (remove_length s _ Hs); simpl; lia).
      cbn [clients]. by rewrite remove_filter.
    + by rewrite filter_absent, with_clients_same.
Qed.

Lemma handle_event_eof ev w db w1 t :
  fileobj ev ≠ server → fileobj ev ∈ sel w →
  read (fileobj ev) (on_recv ev) w = (Ok (true, db), w1, t) →
  handle_event ev w =
  (Ok (), evicted (fileobj ev) w, t ++ [AUnregister (fileobj ev)]).
Proof.
  intros Hs Hreg Hread. rewrite handle_event_client, bind_run, Hread by done.
  apply read_spec in Hread as (_ & -> & _).
  cbn [negb]. rewrite bind_run. cbn [mret M_ret]. rewrite bind_run.
  unfold unregister. cbn [world_of close fst snd sel].
  destruct (decide (fileobj ev ∈ sel w)); [|done].
  rewrite bind_run. cbn [get_clients].
  rewrite remove_while_spec by done. reflexivity.
Qed.

Lemma handle_event_accepted ev w a :
  fileobj ev = server → on_accept ev = Accepted a →
  next_obj w ∉ closed w → next_obj w ∉ sel w →
  handle_event ev w =
  (Ok (), accepted w,
   [AAccept (next_obj w) a; ASetblocking (next_obj w);
    ARegister (next_obj w); APrint (GotSocket (next_obj w) a)]).
Proof.
  intros Hs Ha Hc Hr. unfold handle_event. rewrite decide_True by done.
  rewrite bind_run, Ha. cbn [accept]. rewrite !bind_run.
  cbn [setblocking emit]. rewrite bind_run. unfold register.
  cbn [closed sel]. by rewrite !decide_False by done.
Qed.

(** An event is handled without an exception in two ways only: a
    connection is accepted, or a registered connection has reached its end
    and is evicted. *)
Lemma handle_event_ok ev w w' t :
  handle_event ev w = (Ok (), w', t) →
  (fileobj ev = server ∧ (next_obj w ∉ closed w) ∧ (next_obj w ∉ sel w) ∧
   w' = accepted w) ∨
  (fileobj ev ≠ server ∧ fileobj ev ∈ sel w ∧ w' = evicted (fileobj ev) w ∧
   ∃ db, result_of (read (fileobj ev) (on_recv ev) w) = Ok (true, db)).
Proof.
  intros H. destruct (decide (fileobj ev = server)) as [Hs|Hs].
  - left. destruct (on_accept ev) as [a|c] eqn:Ha.
    + destruct (decide (next_obj w ∈ sel w)) as [Hr|Hr];
        [|destruct (decide (next_obj w ∈ closed w)) as [Hc|Hc]].
      3:{ rewrite (handle_event_accepted _ _ _ Hs Ha Hc Hr) in H.
          by injection H as <- _. }
      all: unfold handle_event in H; rewrite decide_True in H by done;
        rewrite bind_run, Ha in H; cbn [accept] in H;
        rewrite !bind_run in H; cbn [setblocking emit] in H;
        rewrite bind_run in H; unfold register in H; cbn [closed sel] in H.
      * by rewrite decide_True in H by done.
      * by rewrite decide_False, decide_True in H by done.
    + unfold handle_event in H. rewrite decide_True in H by done.
      by rewrite bind_run, Ha in H.
  - right. pose proof H as H'. rewrite handle_event_client in H' by done.
    apply bind_inv in H' as
      [([eof data] & w1 & t1 & t2 & Hread & Hrest & ->)|(? & _ & [=])].
    destruct eof; [|by rewrite bind_run in Hrest].
    destruct (decide (fileobj ev ∈ sel w)) as [Hreg|Hreg].
    + rewrite (handle_event_eof _ _ _ _ _ Hs Hreg Hread) in H.
      injection H as <- _. repeat split; [done..|].
      exists data. by rewrite Hread.
    + apply read_spec in Hread as (_ & -> & _).
      apply bind_inv in Hrest as
        [([] & w2 & ta & tb & [= <- <-] & Hrest & ->)|(? & _ & [=])].
      apply bind_inv in Hrest as
        [([] & w3 & tc & td & Hun & _ & ->)|(? & _ & [=])].
      unfold unregister in Hun. cbn [world_of close fst snd sel] in Hun.
      rewrite decide_False in Hun by done. by case_decide.
Qed.

(** ** The invariant of the loop *)

Lemma consistent_boot : consistent boot.
Proof.
  split; cbn [boot sel clients closed next_obj].
  - set_solver.
  - intros c. split; [intros H; inversion H|].
    by intros [->%elem_of_singleton ?].
  - set_solver.
  - intros c ->%elem_of_singleton. unfold server. lia.
  - set_solver.
  - constructor.
Qed.

(** The next object is new: neither registered nor closed. *)
Lemma next_obj_new w :
  consistent w → (next_obj w ∉ sel w) ∧ (next_obj w ∉ closed w).
Proof.
  intros Hw. split; intros H.
  - apply (registered_old _ Hw) in H. lia.
  - apply (closed_old _ Hw) in H. lia.
Qed.

Lemma consistent_accepted w : consistent w → consistent (accepted w).
Proof.
  intros Hw. destruct (next_obj_new w Hw) as [Hsel Hclosed].
  pose proof (registered_old _ Hw _ (server_registered _ Hw)) as Hserver.
  split; cbn [accepted sel clients closed next_obj].
  - pose proof (server_registered _ Hw). set_solver.
  - intros c. rewrite elem_of_app, list_elem_of_singleton, elem_of_union,
      elem_of_singleton, (clients_registered _ Hw).
    split; [intros [[??]| ->]|intros [[->|?] ?]]; auto. split; [auto|lia].
  - intros c [->%elem_of_singleton|Hc]%elem_of_union; [done|].
    by apply (registered_open _ Hw).
  - intros c [->%elem_of_singleton|Hc]%elem_of_union; [lia|].
    apply (registered_old _ Hw) in Hc. lia.
  - intros c Hc. apply (closed_old _ Hw) in Hc. lia.
  - apply NoDup_app. split; [apply (clients_once _ Hw)|split].
    + intros c Hc ->%list_elem_of_singleton.
      by apply (clients_registered _ Hw) in Hc as [? _].
    + apply NoDup_singleton.
Qed.

Lemma consistent_evicted s w :
  consistent w → s ∈ sel w → s ≠ server → consistent (evicted s w).
Proof.
  intros Hw Hs Hne. split; cbn [evicted sel clients closed next_obj].
  - pose proof (server_registered _ Hw). set_solver.
  - intros c. rewrite list_elem_of_filter, elem_of_difference,
      elem_of_singleton, (clients_registered _ Hw). tauto.
  - intros c [Hc Hcs]%elem_of_difference.
    intros [?|?]%elem_of_union; [done|]. by apply (registered_open _ Hw c).
  - intros c [Hc _]%elem_of_difference. by apply (registered_old _ Hw).
  - intros c [->%elem_of_singleton|Hc]%elem_of_union.
    + by apply (registered_old _ Hw).
    + by apply (closed_old _ Hw).
  - apply NoDup_filter, (clients_once _ Hw).
Qed.

Lemma consistent_step ev w w' t :
  consistent w → handle_event ev w = (Ok (), w', t) → consistent w'.
Proof.
  intros Hw [(_ & _ & _ & ->)|(Hs & Hreg & -> & _)]%handle_event_ok.
  - by apply consistent_accepted.
  - by apply consistent_evicted.
Qed.

Lemma consistent_events evs w w' t :
  consistent w → process_events evs w = (Ok (), w', t) → consistent w'.
Proof.
  revert w t. induction evs as [|ev evs IH]; intros w t Hw.
  - by intros [= <- _].
  - cbn [process_events]. intros
      [([] & w1 & t1 & t2 & Hev & Hrest & ->)|(? & _ & [=])]%bind_inv.
    eapply IH; [|done]. by eapply consistent_step.
Qed.

(** A turn of the loop that ends without an exception: every event has
    been handled, and every client in the list has then been sent the
    payload, in list order. *)
Lemma cycle_ok p w w' t :
  cycle p w = (Ok (), w', t) →
  ∃ t_ev, process_events (events p) w = (Ok (), w', t_ev) ∧
          t = t_ev ++ ((λ c, ASend c PAYLOAD) <$> clients w').
Proof.
  unfold cycle. intros
    [([] & w1 & t1 & t2 & Hev & Hrest & ->)|(? & _ & [=])]%bind_inv.
  rewrite bind_run in Hrest. cbn [get_clients app] in Hrest.
  destruct (broadcast (on_send p) (clients w1) w1) as [[r w2] t3] eqn:Hb.
  injection Hrest as -> -> ->.
  apply broadcast_ok in Hb as [-> ->]. by exists t1.
Qed.

Lemma consistent_main_loop ps w w' t :
  consistent w → main_loop ps w = (Ok (), w', t) → consistent w'.
Proof.
  revert w t. induction ps as [|p ps IH]; intros w t Hw.
  - by intros [= <- _].
  - cbn [main_loop]. intros
      [([] & w1 & t1 & t2 & Hc & Hrest & ->)|(? & _ & [=])]%bind_inv.
    eapply IH; [|done]. apply cycle_ok in Hc as (t_ev & Hev & _).
    by eapply consistent_events.
Qed.

(** C5. At every point where the broadcast runs (after any number of turns
    of the loop, once the events of the current poll, or any first part of
    them, have been handled): the connections in [clients] are exactly the
    registered handles other than the listening socket, none of them is
    closed, and every further event that is handled takes a connection out
    of [clients] exactly when it unregisters it and exactly when it closes
    it. *)
Theorem active_set_invariant (ps : list poll) (p : poll) (w w1 : world)
    (t t1 : list action) :
  main_loop ps boot = (Ok (), w, t) →
  process_events (events p) w = (Ok (), w1, t1) →
  (∀ c, c ∈ clients w1 ↔ c ∈ sel w1 ∧ c ≠ server) ∧
  (∀ c, c ∈ clients w1 → c ∉ closed w1) ∧
  (∀ ev w2 t2, handle_event ev w1 = (Ok (), w2, t2) →
     ∀ c, c ∈ clients w1 →
       ((c ∉ clients w2) ↔ (c ∉ sel w2)) ∧ ((c ∉ clients w2) ↔ c ∈ closed w2)).
Proof.
  intros Hloop Hev.
  assert (consistent w1) as Hw1.
  { eapply consistent_events; [|done].
    by eapply consistent_main_loop; [apply consistent_boot|]. }
  split; [apply (clients_registered _ Hw1)|split].
  - intros c [Hc _]%(clients_registered _ Hw1).
    by apply (registered_open _ Hw1).
  - intros ev w2 t2 Hstep c Hc.
    pose proof (consistent_step _ _ _ _ Hw1 Hstep) as Hw2.
    pose proof Hc as [Hreg Hne]%(clients_registered _ Hw1).
    pose proof (registered_open _ Hw1 _ Hreg) as Hopen.
    rewrite (clients_registered _ Hw2).
    split; [tauto|].
    apply handle_event_ok in Hstep as [(_ & _ & _ & ->)|(Hs & _ & -> & _)];
      cbn [accepted evicted sel clients closed] in *.
    + split; [|done]. intros []. split; [set_solver|done].
    + rewrite elem_of_difference, elem_of_union, !elem_of_singleton.
      split; [|intros [->|?]; [|done]; tauto].
      intros Hout. left. destruct (decide (c = fileobj ev)); [done|].
      destruct Hout. by repeat split.
Qed.

(** ** The broadcast payload *)

Lemma payload_lines :
  split_lines [] PAYLOAD =
  ([list_byte_of_string line1 ++ [x0a];
    list_byte_of_string line2 ++ [x0a];
    list_byte_of_string line3 ++ [x0a]], []).
Proof. vm_compute. reflexivity. Qed.

Lemma payload_start :
  list_byte_of_string "Lorem ipsum quod ecit sit dolor remen."
    `prefix_of` PAYLOAD.
Proof. exists (drop 38 PAYLOAD). vm_compute. reflexivity. Qed.

(** ** Concrete runs *)

Lemma first_poll_run :
  main_loop [first_poll] boot =
  (Ok (), two_clients,
   [AAccept 1 (peer 50001%Z); ASetblocking 1; ARegister 1;
    APrint (GotSocket 1 (peer 50001%Z));
    AAccept 2 (peer 50002%Z); ASetblocking 2; ARegister 2;
    APrint (GotSocket 2 (peer 50002%Z));
    ASend 1 PAYLOAD; ASend 2 PAYLOAD]).
Proof. vm_compute. reflexivity. Qed.

Lemma second_poll_events :
  process_events (events second_poll) two_clients =
  (Ok (), second_left,
   [ARecv 1 (Recv []); APrint (Line "EOF condition reached"); AClose 1;
    AUnregister 1]).
Proof. vm_compute. reflexivity. Qed.

Lemma second_poll_run :
  cycle second_poll two_clients =
  (Ok (), second_left,
   [ARecv 1 (Recv []); APrint (Line "EOF condition reached"); AClose 1;
    AUnregister 1; ASend 2 PAYLOAD]).
Proof. vm_compute. reflexivity. Qed.

(** ** The broadcast *)

Lemma sends_app t1 t2 : sends (t1 ++ t2) = sends t1 ++ sends t2.
Proof. apply omap_app. Qed.

Lemma sends_fmap data (l : list sock) :
  sends ((λ c, ASend c data) <$> l) = (λ c, (c, data)) <$> l.
Proof. induction l as [|c l IH]; [done|]. cbn. by f_equal. Qed.

Lemma sends_none t : Forall (λ a, ¬ is_send a) t → sends t = [].
Proof.
  induction 1 as [|a t Ha _ IH]; [done|].
  destruct a; cbn in *; tauto.
Qed.

(** The broadcast over connections that are open and whose [send]
    succeeds. *)
Lemma broadcast_all_sent f (l : list sock) w :
  Forall (λ c, (c ∉ closed w) ∧ f c = None) l →
  broadcast f l w = (Ok (), w, (λ c, ASend c PAYLOAD) <$> l).
Proof.
  induction 1 as [|c l [Hc Hf] _ IH]; [done|].
  cbn [broadcast]. rewrite bind_run. unfold send.
  rewrite decide_False, Hf by done. by rewrite IH.
Qed.

(** The broadcast up to a connection whose [send] raises. *)
Lemma broadcast_fails_at f (l1 l2 : list sock) c e w :
  Forall (λ x, (x ∉ closed w) ∧ f x = None) l1 →
  c ∉ closed w → f c = Some e →
  broadcast f (l1 ++ c :: l2) w =
  (Raised (Error e), w, (λ x, ASend x PAYLOAD) <$> (l1 ++ [c])).
Proof.
  intros Hl1 Hc Hf. induction Hl1 as [|x l1 [Hx Hfx] _ IH];
    cbn [app broadcast]; rewrite bind_run; unfold send.
  - by rewrite decide_False, Hf by done.
  - rewrite decide_False, Hfx by done. by rewrite IH.
Qed.

(** C3, as the code has it.  In a state the loop has reached, on a turn
    whose events have all been handled without an exception, the broadcast
    sends the same fixed payload to the connections in [clients], in list
    order: to every one of them, once, when no [send] raises; otherwise up
    to and including the first one whose [send] raises, the exception then
    ending the loop.  The handling of the events sends nothing.  The
    payload consists of exactly three newline-terminated lines, the first
    of which begins with "Lorem ipsum quod ecit sit dolor remen.". *)
Theorem broadcast_up_to_first_failure (ps : list poll) (p : poll)
    (w w1 : world) (t t_ev : list action) :
  main_loop ps boot = (Ok (), w, t) →
  process_events (events p) w = (Ok (), w1, t_ev) →
  sends t_ev = [] ∧
  ((∀ c, c ∈ clients w1 → on_send p c = None) →
   cycle p w =
     (Ok (), w1, t_ev ++ ((λ c, ASend c PAYLOAD) <$> clients w1))) ∧
  (∀ l1 c l2 e,
     clients w1 = l1 ++ c :: l2 →
     (∀ x, x ∈ l1 → on_send p x = None) →
     on_send p c = Some e →
     cycle p w =
       (Raised (Error e), w1,
        t_ev ++ ((λ x, ASend x PAYLOAD) <$> (l1 ++ [c])))) ∧
  (∃ l1 l2 l3,
      split_lines [] PAYLOAD = ([l1; l2; l3], []) ∧
      list_byte_of_string "Lorem ipsum quod ecit sit dolor remen."
        `prefix_of` l1).
Proof.
  intros Hloop Hev.
  assert (consistent w1) as Hw1.
  { eapply consistent_events; [|done].
    by eapply consistent_main_loop; [apply consistent_boot|]. }
  assert (∀ c, c ∈ clients w1 → c ∉ closed w1) as Hopen.
  { intros c [Hc _]%(clients_registered _ Hw1).
    by apply (registered_open _ Hw1). }
  split; [|split; [|split]].
  - destruct (process_events_no_send (events p) w) as [Hno _].
    rewrite Hev in Hno. by apply sends_none.
  - intros Hfine. unfold cycle. rewrite bind_run, Hev, bind_run.
    cbn [get_clients]. rewrite broadcast_all_sent; [done|].
    apply Forall_forall. intros c Hc. split; [by apply Hopen|by apply Hfine].
  - intros l1 c l2 e Hl Hfine Hfail. unfold cycle.
    rewrite bind_run, Hev, bind_run. cbn [get_clients]. rewrite Hl.
    rewrite (broadcast_fails_at _ _ _ _ e); [done| | |done].
    + apply Forall_forall. intros x Hx. split; [|by apply Hfine].
      apply Hopen. rewrite Hl. apply elem_of_app. by left.
    + apply Hopen. rewrite Hl. apply elem_of_app. right.
      apply list_elem_of_here.
  - eexists _, _, _. split; [apply payload_lines|].
    exists (drop 38 (list_byte_of_string line1 ++ [x0a])).
    vm_compute. reflexivity.
Qed.

Lemma broadcast_up_to_first_failure_witness :
  cycle (arrival 50003%Z) two_clients =
    (Ok (), accepted two_clients,
     [AAccept 3 (peer 50003%Z); ASetblocking 3; ARegister 3;
      APrint (GotSocket 3 (peer 50003%Z))] ++
     [ASend 1 PAYLOAD; ASend 2 PAYLOAD; ASend 3 PAYLOAD]) ∧
  cycle {| events := [connects 50003%Z]; on_send := broken_pipe_on 2 |}
      two_clients =
    (Raised (Error BrokenPipeError), accepted two_clients,
     [AAccept 3 (peer 50003%Z); ASetblocking 3; ARegister 3;
      APrint (GotSocket 3 (peer 50003%Z))] ++
     [ASend 1 PAYLOAD; ASend 2 PAYLOAD]).
Proof.
  assert (H1 : main_loop [arrival 50001%Z; arrival 50002%Z] boot =
    (Ok (), two_clients,
     trace_of (main_loop [arrival 50001%Z; arrival 50002%Z] boot)))
    by (vm_compute; reflexivity).
  assert (H2 : process_events [connects 50003%Z] two_clients =
    (Ok (), accepted two_clients,
     [AAccept 3 (peer 50003%Z); ASetblocking 3; ARegister 3;
      APrint (GotSocket 3 (peer 50003%Z))]))
    by (vm_compute; reflexivity).
  split.
  - destruct (broadcast_up_to_first_failure _ (arrival 50003%Z) _ _ _ _
                H1 H2) as (_ & Hall & _).
    apply Hall. reflexivity.
  - destruct (broadcast_up_to_first_failure _
                {| events := [connects 50003%Z]; on_send := broken_pipe_on 2 |}
                _ _ _ _ H1 H2) as (_ & _ & Hfail & _).
    apply (Hfail [1] 2 [3] BrokenPipeError); [reflexivity| |reflexivity].
    intros x ->%list_elem_of_singleton. reflexivity.
Defined.

(** C3, as the specification states it, fails.  Two clients are connected
    and the poll times out; the [send] to the first raises
    [BrokenPipeError]: the exception ends the broadcast, and the second
    client, still in [clients], is not sent the payload. *)
Lemma failed_send_leaves_client_unsent :
  main_loop [arrival 50001%Z; arrival 50002%Z] boot =
    (Ok (), two_clients,
     trace_of (main_loop [arrival 50001%Z; arrival 50002%Z] boot)) ∧
  cycle {| events := []; on_send := broken_pipe_on 1 |} two_clients =
    (Raised (Error BrokenPipeError), two_clients, [ASend 1 PAYLOAD]) ∧
  2 ∈ clients two_clients ∧
  ¬ (∀ c, c ∈ clients two_clients →
          ASend c PAYLOAD ∈
            trace_of (cycle {| events := []; on_send := broken_pipe_on 1 |}
                        two_clients)).
Proof.
  assert (Hrun : cycle {| events := []; on_send := broken_pipe_on 1 |}
                   two_clients =
    (Raised (Error BrokenPipeError), two_clients, [ASend 1 PAYLOAD]))
    by (vm_compute; reflexivity).
  assert (Hin : 2 ∈ clients two_clients)
    by (cbn; apply list_elem_of_further, list_elem_of_here).
  split; [vm_compute; reflexivity|]. split; [exact Hrun|].
  split; [exact Hin|].
  intros Hall. specialize (Hall 2 Hin). rewrite Hrun in Hall.
  apply list_elem_of_singleton in Hall. discriminate Hall.
Qed.

(** ** End of stream *)

(** C6. Whenever [read] returns end-of-stream true it has itself closed the
    handle; the event loop, for a registered connection, then unregisters
    it and removes every occurrence of it from [clients]. *)
Theorem eof_closes_then_evicts (ev : ready) (w w1 : world) (db : bytes)
    (t : list action) :
  fileobj ev ≠ server →
  fileobj ev ∈ sel w →
  read (fileobj ev) (on_recv ev) w = (Ok (true, db), w1, t) →
  fileobj ev ∈ closed w1 ∧
  (∃ t', t = t' ++ [AClose (fileobj ev)]) ∧
  ∃ w2,
    handle_event ev w = (Ok (), w2, t ++ [AUnregister (fileobj ev)]) ∧
    sel w2 = sel w ∖ {[fileobj ev]} ∧
    clients w2 = filter (λ x, x ≠ fileobj ev) (clients w) ∧
    (fileobj ev ∉ clients w2) ∧
    closed w2 = closed w1.
Proof.
  intros Hs Hreg Hread.
  pose proof (handle_event_eof _ _ _ _ _ Hs Hreg Hread) as Hev.
  apply read_spec in Hread as (_ & -> & Hclose).
  split; [cbn; set_solver|]. split; [by apply Hclose|].
  exists (evicted (fileobj ev) w). repeat split; [done|].
  cbn [evicted clients]. rewrite list_elem_of_filter. tauto.
Qed.

Lemma eof_closes_then_evicts_witness :
  1 ∈ closed (world_of (read 1 [Recv []] two_clients)) ∧
  handle_event (yields 1 [Recv []]) two_clients =
    (Ok (), second_left,
     [ARecv 1 (Recv []); APrint (Line "EOF condition reached"); AClose 1;
      AUnregister 1]).
Proof.
  assert (fileobj (yields 1 [Recv []]) ≠ server) as H1
    by (vm_compute; discriminate).
  assert (fileobj (yields 1 [Recv []]) ∈ sel two_clients) as H2
    by (vm_compute; reflexivity).
  assert (read (fileobj (yields 1 [Recv []])) (on_recv (yields 1 [Recv []]))
            two_clients =
          (Ok (true, []), world_of (read 1 [Recv []] two_clients),
           [ARecv 1 (Recv []); APrint (Line "EOF condition reached");
            AClose 1])) as H3 by (vm_compute; reflexivity).
  destruct (eof_closes_then_evicts _ _ _ _ _ H1 H2 H3)
    as (Hclosed & _ & w2 & Hev & _).
  split; [exact Hclosed|]. vm_compute. reflexivity.
Defined.

(** ** Isolation *)

Lemma handle_event_payload_only ev :
  behaves payload_only any any (handle_event ev).
Proof.
  destruct (decide (fileobj ev = server)).
  - apply behaves_handle_accept; first [done | intros; cbn; tauto].
  - apply behaves_handle_client; first [done | intros; cbn; tauto].
Qed.

Lemma main_loop_payload_only qs : behaves payload_only any any (main_loop qs).
Proof.
  induction qs as [|p qs IH]; [by apply behaves_ret|].
  cbn [main_loop]. eapply behaves_bind; [|done]. unfold cycle.
  eapply (behaves_bind _ _ any).
  - induction (events p) as [|ev evs IHev]; [by apply behaves_ret|].
    cbn [process_events].
    eapply behaves_bind; [apply handle_event_payload_only|done].
  - intros _ _. eapply behaves_bind; [apply behaves_get_clients|].
    intros l _. by apply behaves_broadcast.
Qed.

(** C9. While the readiness event of a client connection is handled, every
    call the loop makes is on that connection: the [recv]s, the [close],
    the [unregister], and the statement [s.write(data)] (the exception of
    its failed lookup names that connection); and whatever any connection
    is ever sent is the fixed payload, never bytes read from a client. *)
Theorem echo_stays_on_origin (ev : ready) (w : world) :
  fileobj ev ≠ server →
  Forall (about (fileobj ev)) (trace_of (handle_event ev w)) ∧
  (∀ o name, result_of (handle_event ev w) = Raised (NoAttribute o name) →
             o = fileobj ev) ∧
  (∀ qs, Forall payload_only (trace_of (main_loop qs w))).
Proof.
  intros Hs.
  destruct (behaves_handle_client (about (fileobj ev)) (lookup_on (fileobj ev))
              (λ _, I) (λ _, I) ev Hs (λ _, eq_refl) eq_refl eq_refl eq_refl w)
    as [Htrace Hres].
  split; [done|split].
  - intros o name Hr. by rewrite Hr in Hres.
  - intros qs. apply main_loop_payload_only.
Qed.

Lemma echo_stays_on_origin_witness :
  fileobj (yields 1 [Recv [x68; x69]]) ≠ server ∧
  Forall (about 1) (trace_of (handle_event (yields 1 [Recv [x68; x69]])
                                two_clients)).
Proof.
  assert (fileobj (yields 1 [Recv [x68; x69]]) ≠ server) as H
    by (vm_compute; discriminate).
  split; [exact H|].
  exact (proj1 (echo_stays_on_origin (yields 1 [Recv [x68; x69]])
                  two_clients H)).
Defined.

(** ** Eviction *)







(** A readiness event for a connection that has already been evicted:
    [recv] on the closed handle raises [OSError], [read] closes again and
    reports end-of-stream, and [sel.unregister] raises [ValueError]. *)
Lemma handle_event_evicted ev w :
  fileobj ev ≠ server → fileobj ev ∈ closed w → fileobj ev ∉ sel w →
  handle_event ev w =
  (Raised (Error ValueError), w,
   [ARecv (fileobj ev) (RecvRaise OSError);
    APrint (Line "Got an OSError in read() call."); AClose (fileobj ev)]).
Proof.
  intros Hs Hclosed Hreg.
  assert (world_of (close (fileobj ev) w) = w) as Hsame.
  { destruct w as [r l c n]. cbn in *. f_equal.
    by apply subseteq_union_1_L, singleton_subseteq_l. }
  rewrite handle_event_client, bind_run by done.
  rewrite (read_oserror_clause _ _ _ _ _ _
             (recv_loop_closed _ _ [] w Hclosed) eq_refl).
  rewrite Hsame. cbn [negb app]. rewrite !bind_run. cbn [mret M_ret].
  rewrite bind_run. unfold unregister.
  by rewrite decide_False, decide_True by done.
Qed.











Lemma active_set_invariant_witness :
  main_loop [first_poll] boot =
    (Ok (), two_clients, trace_of (main_loop [first_poll] boot)) ∧
  process_events (events second_poll) two_clients =
    (Ok (), second_left,
     trace_of (process_events (events second_poll) two_clients)) ∧
  (∀ c, c ∈ clients second_left ↔ c ∈ sel second_left ∧ c ≠ server) ∧
  (∀ c, c ∈ clients second_left → c ∉ closed second_left).
Proof.
  assert (main_loop [first_poll] boot =
    (Ok (), two_clients, trace_of (main_loop [first_poll] boot))) as H1
    by (vm_compute; reflexivity).
  assert (process_events (events second_poll) two_clients =
    (Ok (), second_left,
     trace_of (process_events (events second_poll) two_clients))) as H2
    by (vm_compute; reflexivity).
  split; [exact H1|]. split; [exact H2|].
  destruct (active_set_invariant _ _ _ _ _ _ H1 H2) as (Ha & Hb & _).
  split; [exact Ha|exact Hb].
Defined.


(** * Further properties of [read] *)

(** X1. What [read] does with an exception of [recv] depends on its class
    alone: a [BlockingIOError] ends the call with end-of-stream false, any
    other [OSError] with end-of-stream true and the handle closed, in both
    cases with the bytes accumulated so far; an exception that is not an
    [OSError] escapes from [read], which then closes nothing. *)
Theorem read_exception_outcomes (s : sock) (w : world) (pre : list bytes)
    (c : exn_class) (rest : list recv_result) :
  s ∉ closed w →
  Forall (λ d : bytes, RECV_MAX ≤ length d) pre →
  read s ((Recv <$> pre) ++ RecvRaise c :: rest) w =
  if issubclass c BlockingIOError then
    (Ok (false, concat pre), w,
     (ARecv s <$> (Recv <$> pre)) ++
     [ARecv s (RecvRaise c);
      APrint (Line "Got a BlockingIOError in read() call.")])
  else if issubclass c OSError then
    (Ok (true, concat pre), world_of (close s w),
     (ARecv s <$> (Recv <$> pre)) ++
     [ARecv s (RecvRaise c); APrint (Line "Got an OSError in read() call.");
      AClose s])
  else
    (Raised (Error c), w, (ARecv s <$> (Recv <$> pre)) ++ [ARecv s (RecvRaise c)]).
Proof.
  intros Hs Hpre. unfold read. rewrite bind_run, recv_loop_full by done.
  rewrite recv_loop_raise by done. cbn [app].
  destruct c; cbn;
    repeat match goal with
           | |- context [issubclass ?a ?b] =>
               let v := eval vm_compute in (issubclass a b) in
               change (issubclass a b) with v
           end;
    repeat (rewrite bind_run; cbn); by rewrite <- ?app_assoc, ?app_nil_r.
Qed.

Lemma read_exception_outcomes_witness :
  read 1 [Recv full_chunk; RecvRaise BrokenPipeError] two_clients =
    (Ok (true, full_chunk), world_of (close 1 two_clients),
     [ARecv 1 (Recv full_chunk); ARecv 1 (RecvRaise BrokenPipeError);
      APrint (Line "Got an OSError in read() call."); AClose 1]) ∧
  read 1 [Recv full_chunk; RecvRaise ValueError] two_clients =
    (Raised (Error ValueError), two_clients,
     [ARecv 1 (Recv full_chunk); ARecv 1 (RecvRaise ValueError)]).
Proof.
  assert (H1 : 1 ∉ closed two_clients) by (vm_compute; intros H; inversion H).
  assert (H2 : Forall (λ d : bytes, RECV_MAX ≤ length d) [full_chunk]).
  { constructor; [|constructor]. vm_compute. reflexivity. }
  split.
  - rewrite <- (app_nil_r full_chunk) at 2.
    exact (read_exception_outcomes 1 two_clients [full_chunk] BrokenPipeError
             [] H1 H2).
  - exact (read_exception_outcomes 1 two_clients [full_chunk] ValueError
             [] H1 H2).
Defined.

(** X2. On a handle that is already closed [read] never looks at what is
    pending: the first [recv] raises [OSError], and the call returns
    end-of-stream true with an empty buffer, the state unchanged by the
    second [close]. *)
Theorem read_closed_handle (s : sock) (script : list recv_result) (w : world) :
  s ∈ closed w →
  read s script w =
  (Ok (true, []), w,
   [ARecv s (RecvRaise OSError);
    APrint (Line "Got an OSError in read() call."); AClose s]).
Proof.
  intros Hs.
  rewrite (read_oserror_clause _ _ _ _ _ _ (recv_loop_closed s _ [] w Hs)
             eq_refl).
  f_equal. f_equal. destruct w as [r l c n]. cbn in *. f_equal.
  by apply subseteq_union_1_L, singleton_subseteq_l.
Qed.

Lemma read_closed_handle_witness :
  1 ∈ closed second_left ∧
  read 1 [Recv [x68; x69]] second_left =
  (Ok (true, []), second_left,
   [ARecv 1 (RecvRaise OSError);
    APrint (Line "Got an OSError in read() call."); AClose 1]).
Proof.
  assert (H : 1 ∈ closed second_left) by (vm_compute; reflexivity).
  split; [exact H|]. exact (read_closed_handle 1 [Recv [x68; x69]] _ H).
Defined.

Lemma recv_loop_trace s script db w :
  Forall reads_or_prints (trace_of (recv_loop s script db w)).
Proof.
  by destruct (behaves_recv_loop reads_or_prints any (λ _, I)
                 s script db (λ _, I) w).
Qed.

(** X3. The only effect of [read] on the state is the [close]: it is the
    last action exactly when end-of-stream true is returned, and there is
    no [close] at all when end-of-stream false is; before it come only
    [recv] calls and prints; the selector and [clients] are as before. *)
Theorem read_closes_iff_eof (s : sock) (script : list recv_result)
    (w w' : world) (eof : bool) (db : bytes) (t : list action) :
  read s script w = (Ok (eof, db), w', t) →
  sel w' = sel w ∧ clients w' = clients w ∧ next_obj w' = next_obj w ∧
  closed w' = (if eof then {[s]} ∪ closed w else closed w) ∧
  ∃ t', t = t' ++ (if eof then [AClose s] else []) ∧
        Forall reads_or_prints t'.
Proof.
  intros Hread. pose proof Hread as (_ & -> & _)%read_spec.
  split; [by destruct eof|]. split; [by destruct eof|].
  split; [by destruct eof|]. split; [by destruct eof|].
  revert Hread. unfold read. rewrite bind_run.
  pose proof (recv_loop_trace s script [] w) as Ht0.
  destruct (recv_loop_spec s script [] w) as (thrown & has_eof & t0 & Hloop).
  rewrite Hloop in Ht0 |- *. cbn [app]. rewrite bind_run.
  destruct thrown as [e|]; [destruct (select_clause e) as [c|]|].
  - destruct (run_clause_spec c has_eof w) as (b & o & ->).
    rewrite read_end. intros [= <- _ _ <-].
    exists (t0 ++ [APrint (Line o)]). rewrite <- app_assoc. split; [done|].
    apply Forall_app. split; [done|]. by apply Forall_singleton.
  - intros [=].
  - change (@mret M _ bool has_eof w) with (Ok has_eof, w, @nil action).
    cbv beta iota. rewrite read_end. intros [= <- _ _ <-].
    by exists t0.
Qed.

Lemma read_closes_iff_eof_witness :
  closed (world_of (read 1 [Recv [x68; x69]] two_clients)) = closed two_clients ∧
  closed (world_of (read 1 [Recv []] two_clients)) = {[1]} ∪ closed two_clients.
Proof.
  assert (H1 : read 1 [Recv [x68; x69]] two_clients =
    (Ok (false, [x68; x69]), world_of (read 1 [Recv [x68; x69]] two_clients),
     trace_of (read 1 [Recv [x68; x69]] two_clients)))
    by (vm_compute; reflexivity).
  assert (H2 : read 1 [Recv []] two_clients =
    (Ok (true, []), world_of (read 1 [Recv []] two_clients),
     trace_of (read 1 [Recv []] two_clients)))
    by (vm_compute; reflexivity).
  split.
  - exact (proj1 (proj2 (proj2 (proj2
             (read_closes_iff_eof _ _ _ _ _ _ _ H1))))).
  - exact (proj1 (proj2 (proj2 (proj2
             (read_closes_iff_eof _ _ _ _ _ _ _ H2))))).
Defined.

(** * Further properties of the main loop *)

(** X4. The loop [while s in clients: clients.remove(s)] never raises the
    [ValueError] of [list.remove], ends within as many turns as the list
    is long, and leaves the list without any occurrence of [s], the other
    entries in their order; nothing else of the state changes. *)
Theorem remove_loop_removes_all (s : sock) (w : world) (more : nat) :
  remove_while (length (clients w) + more) s w =
    (Ok (), with_clients (filter (λ x, x ≠ s) (clients w)) w, []) ∧
  (s ∉ clients (world_of (remove_while (length (clients w) + more) s w))) ∧
  (∀ c, c ≠ s →
     (c ∈ clients (world_of (remove_while (length (clients w) + more) s w))
      ↔ c ∈ clients w)).
Proof.
  rewrite remove_while_spec by lia. split; [done|]. cbn. split.
  - rewrite list_elem_of_filter. tauto.
  - intros c Hc. rewrite list_elem_of_filter. tauto.
Qed.

Lemma process_events_app evs1 evs2 w :
  process_events (evs1 ++ evs2) w =
  (process_events evs1;; process_events evs2) w.
Proof.
  revert w. induction evs1 as [|ev evs1 IH]; intros w.
  - cbn [app process_events]. rewrite bind_run. cbn.
    by destruct (process_events evs2 w) as [[??]?].
  - cbn [app process_events]. rewrite !bind_run.
    destruct (handle_event ev w) as [[[[]|e] w1] t1]; [|done].
    rewrite IH, bind_run.
    destruct (process_events evs1 w1) as [[[[]|e] w2] t2]; [|done].
    destruct (process_events evs2 w2) as [[r w3] t3].
    by rewrite app_assoc.
Qed.

Lemma reached_consistent ps p w w1 t t1 :
  main_loop ps boot = (Ok (), w, t) →
  process_events (events p) w = (Ok (), w1, t1) →
  consistent w1.
Proof.
  intros Hloop Hev. eapply consistent_events; [|done].
  by eapply consistent_main_loop; [apply consistent_boot|].
Qed.

(** X5. In every state the loop reaches, when the listening socket is
    ready and [accept] succeeds the event is handled without exception
    (the registration never finds the handle closed or already
    registered): the connection is a new object, registered and appended
    at the end of [clients], and the other connections are left as they
    were. *)
Theorem accept_in_reached_state (ps : list poll) (p : poll) (w w1 : world)
    (t t1 : list action) (ev : ready) (a : address) :
  main_loop ps boot = (Ok (), w, t) →
  process_events (events p) w = (Ok (), w1, t1) →
  fileobj ev = server →
  on_accept ev = Accepted a →
  handle_event ev w1 =
    (Ok (), accepted w1,
     [AAccept (next_obj w1) a; ASetblocking (next_obj w1);
      ARegister (next_obj w1); APrint (GotSocket (next_obj w1) a)]) ∧
  (next_obj w1 ∉ clients w1) ∧ (next_obj w1 ∉ sel w1) ∧
  (next_obj w1 ∉ closed w1) ∧
  clients (accepted w1) = clients w1 ++ [next_obj w1] ∧
  sel (accepted w1) = {[next_obj w1]} ∪ sel w1 ∧
  closed (accepted w1) = closed w1.
Proof.
  intros Hloop Hev Hs Ha.
  pose proof (reached_consistent _ _ _ _ _ _ Hloop Hev) as Hw1.
  destruct (next_obj_new w1 Hw1) as [Hsel Hclosed].
  split; [by apply handle_event_accepted|].
  split; [|done]. by intros [? _]%(clients_registered _ Hw1).
Qed.

Lemma accept_in_reached_state_witness :
  handle_event (connects 50003%Z) second_left =
    (Ok (), accepted second_left,
     [AAccept 3 (peer 50003%Z); ASetblocking 3; ARegister 3;
      APrint (GotSocket 3 (peer 50003%Z))]) ∧
  clients (accepted second_left) = [2; 3].
Proof.
  assert (H1 : main_loop [first_poll] boot =
    (Ok (), two_clients, trace_of (main_loop [first_poll] boot)))
    by (vm_compute; reflexivity).
  assert (H2 : process_events (events second_poll) two_clients =
    (Ok (), second_left,
     trace_of (process_events (events second_poll) two_clients)))
    by (vm_compute; reflexivity).
  split; [|vm_compute; reflexivity].
  exact (proj1 (accept_in_reached_state _ _ _ _ _ _ (connects 50003%Z)
                  (peer 50003%Z) H1 H2 eq_refl eq_refl)).
Defined.

(** X6. An exception that escapes from the handling of one event ends the
    loop there: the events after it in the same poll are not handled, the
    broadcast of the turn does not run, and no later turn runs. *)
Theorem exception_ends_the_loop (pre rest : list ready) (ev : ready)
    (f : sock → option exn_class) (qs : list poll) (w w1 w2 : world)
    (t0 t : list action) (e : exn) :
  process_events pre w = (Ok (), w1, t0) →
  handle_event ev w1 = (Raised e, w2, t) →
  main_loop ({| events := pre ++ ev :: rest; on_send := f |} :: qs) w =
    (Raised e, w2, t0 ++ t) ∧
  sends (t0 ++ t) = [].
Proof.
  intros Hpre Hev. split.
  - cbn [main_loop]. unfold cycle. cbn [events].
    rewrite bind_run, bind_run, process_events_app, bind_run, Hpre.
    cbn [process_events]. by rewrite bind_run, Hev.
  - rewrite sends_app. rewrite !sends_none; [done| |].
    + destruct (handle_event_no_send ev w1) as [Hno _]. by rewrite Hev in Hno.
    + destruct (process_events_no_send pre w) as [Hno _].
      by rewrite Hpre in Hno.
Qed.

Lemma exception_ends_the_loop_witness :
  main_loop [{| events := [yields 1 [Recv []]; refuses; connects 50003%Z];
                on_send := sends_fine |}; first_poll] two_clients =
  (Raised (Error BlockingIOError), second_left,
   [ARecv 1 (Recv []); APrint (Line "EOF condition reached"); AClose 1;
    AUnregister 1] ++ []).
Proof.
  refine (proj1 (exception_ends_the_loop [yields 1 [Recv []]]
            [connects 50003%Z] refuses sends_fine [first_poll]
            two_clients second_left second_left _ [] _ _ _)).
  - vm_compute. reflexivity.
  - vm_compute. reflexivity.
Defined.

(** X7. A [send] that raises during the broadcast ends it: the clients
    before it in [clients] have been sent the payload, the ones after it
    are not sent anything, and the exception escapes. *)
Theorem broadcast_stops_at_failed_send (f : sock → option exn_class)
    (l1 l2 : list sock) (c : sock) (e : exn_class) (w : world) :
  Forall (λ x, (x ∉ closed w) ∧ f x = None) l1 →
  c ∉ closed w →
  f c = Some e →
  broadcast f (l1 ++ c :: l2) w =
  (Raised (Error e), w, (λ x, ASend x PAYLOAD) <$> (l1 ++ [c])).
Proof.
  intros Hl1 Hc Hf. induction Hl1 as [|x l1 [Hx Hfx] _ IH].
  - cbn [app broadcast]. rewrite bind_run. unfold send.
    by rewrite decide_False, Hf by done.
  - cbn [app broadcast]. rewrite bind_run. unfold send.
    rewrite decide_False, Hfx by done. by rewrite IH.
Qed.

Lemma broadcast_stops_at_failed_send_witness :
  broadcast (broken_pipe_on 2) ([1] ++ 2 :: [3]) (accepted two_clients) =
  (Raised (Error BrokenPipeError), accepted two_clients,
   (λ x, ASend x PAYLOAD) <$> ([1] ++ [2])).
Proof.
  apply broadcast_stops_at_failed_send.
  - constructor; [|constructor]. split; [|reflexivity].
    vm_compute. intros H. inversion H.
  - vm_compute. intros H. inversion H.
  - reflexivity.
Defined.

(** X8. A poll that times out with no event leaves the state as it is and
    sends the payload to every connection in [clients], in list order,
    when no [send] fails: in a state the loop reaches none of them is
    closed. *)
Theorem idle_poll_broadcasts (ps : list poll) (w : world) (t : list action)
    (f : sock → option exn_class) :
  main_loop ps boot = (Ok (), w, t) →
  (∀ c, c ∈ clients w → f c = None) →
  cycle {| events := []; on_send := f |} w =
  (Ok (), w, (λ c, ASend c PAYLOAD) <$> clients w).
Proof.
  intros Hloop Hf.
  assert (consistent w) as Hw
    by (by eapply consistent_main_loop; [apply consistent_boot|]).
  unfold cycle. cbn [events process_events]. rewrite bind_run.
  cbn [mret M_ret]. rewrite bind_run. cbn [get_clients].
  rewrite broadcast_all_sent; [done|].
  apply Forall_forall. intros c Hc. split; [|by apply Hf].
  apply (registered_open _ Hw). by apply (clients_registered _ Hw) in Hc as [? _].
Qed.

Lemma idle_poll_broadcasts_witness :
  cycle {| events := []; on_send := sends_fine |} two_clients =
  (Ok (), two_clients, [ASend 1 PAYLOAD; ASend 2 PAYLOAD]).
Proof.
  refine (idle_poll_broadcasts [first_poll] two_clients
            (trace_of (main_loop [first_poll] boot)) sends_fine _ _).
  - vm_compute. reflexivity.
  - reflexivity.
Defined.

(** X9. The listening socket is never read from, closed, unregistered or
    put in [clients]: in every state the loop reaches it is registered and
    open, and the handling of its readiness event makes no [recv], no
    [close] and no [unregister]. *)
Theorem listening_socket_stays (ps : list poll) (p : poll) (w w1 : world)
    (t t1 : list action) :
  main_loop ps boot = (Ok (), w, t) →
  process_events (events p) w = (Ok (), w1, t1) →
  server ∈ sel w1 ∧ (server ∉ clients w1) ∧ (server ∉ closed w1) ∧
  ∀ ev, fileobj ev = server →
    Forall no_client_call (trace_of (handle_event ev w1)).
Proof.
  intros Hloop Hev.
  pose proof (reached_consistent _ _ _ _ _ _ Hloop Hev) as Hw1.
  split; [apply (server_registered _ Hw1)|].
  split; [by intros [_ ?]%(clients_registered _ Hw1)|].
  split; [apply (registered_open _ Hw1), (server_registered _ Hw1)|].
  intros ev Hs.
  by destruct (behaves_handle_accept no_client_call any (λ _, I) (λ _, I)
                 ev Hs (λ _ _, I) (λ _, I) (λ _, I) w1).
Qed.

Lemma listening_socket_stays_witness :
  server ∈ sel second_left ∧ (server ∉ clients second_left) ∧
  (server ∉ closed second_left).
Proof.
  assert (H1 : main_loop [first_poll] boot =
    (Ok (), two_clients, trace_of (main_loop [first_poll] boot)))
    by (vm_compute; reflexivity).
  assert (H2 : process_events (events second_poll) two_clients =
    (Ok (), second_left,
     trace_of (process_events (events second_poll) two_clients)))
    by (vm_compute; reflexivity).
  destruct (listening_socket_stays _ _ _ _ _ _ H1 H2) as (Ha & Hb & Hc & _).
  split; [exact Ha|]. split; [exact Hb|exact Hc].
Defined.

Lemma Forall_filter_keep {A} (Q P : A → Prop) `{∀ x, Decision (P x)}
    (l : list A) :
  Forall Q l → Forall Q (filter P l).
Proof.
  rewrite !Forall_forall. intros HQ x [_ Hx]%list_elem_of_filter. by apply HQ.
Qed.

Lemma StronglySorted_filter {A} (R : relation A) (P : A → Prop)
    `{∀ x, Decision (P x)} (l : list A) :
  StronglySorted R l → StronglySorted R (filter P l).
Proof.
  induction 1 as [|x l Hl IH Hx]; [constructor|].
  rewrite filter_cons. case_decide; [|done].
  constructor; [done|]. by apply Forall_filter_keep.
Qed.

Lemma in_accept_order_boot : in_accept_order boot.
Proof. split; constructor. Qed.

Lemma in_accept_order_step ev w w' t :
  in_accept_order w → handle_event ev w = (Ok (), w', t) →
  in_accept_order w'.
Proof.
  intros [Hsorted Hold] [(_ & _ & _ & ->)|(_ & _ & -> & _)]%handle_event_ok;
    split; cbn [accepted evicted clients next_obj].
  - apply StronglySorted_app_2; [|done|repeat constructor].
    intros x1 x2 Hx1 ->%list_elem_of_singleton.
    rewrite Forall_forall in Hold. by apply Hold.
  - apply Forall_app. split; [|apply Forall_singleton; lia].
    eapply Forall_impl; [done|]. intros; simpl in *; lia.
  - by apply StronglySorted_filter.
  - by apply Forall_filter_keep.
Qed.

Lemma in_accept_order_events evs w w' t :
  in_accept_order w → process_events evs w = (Ok (), w', t) →
  in_accept_order w'.
Proof.
  revert w t. induction evs as [|ev evs IH]; intros w t Hw.
  - by intros [= <- _].
  - cbn [process_events]. intros
      [([] & w1 & t1 & t2 & Hev & Hrest & ->)|(? & _ & [=])]%bind_inv.
    eapply IH; [|done]. by eapply in_accept_order_step.
Qed.

Lemma in_accept_order_main_loop ps w w' t :
  in_accept_order w → main_loop ps w = (Ok (), w', t) → in_accept_order w'.
Proof.
  revert w t. induction ps as [|p ps IH]; intros w t Hw.
  - by intros [= <- _].
  - cbn [main_loop]. intros
      [([] & w1 & t1 & t2 & Hc & Hrest & ->)|(? & _ & [=])]%bind_inv.
    eapply IH; [|done]. apply cycle_ok in Hc as (t_ev & Hev & _).
    by eapply in_accept_order_events.
Qed.

(** X10. In every state the loop reaches, [clients] holds each connection
    at most once and in the order in which the connections were accepted
    (object identities grow along the list), so the broadcast reaches the
    clients oldest first. *)
Theorem clients_in_accept_order (ps : list poll) (p : poll) (w w1 : world)
    (t t1 : list action) :
  main_loop ps boot = (Ok (), w, t) →
  process_events (events p) w = (Ok (), w1, t1) →
  NoDup (clients w1) ∧ StronglySorted lt (clients w1) ∧
  Forall (λ c, c < next_obj w1) (clients w1).
Proof.
  intros Hloop Hev.
  split; [apply (clients_once _ (reached_consistent _ _ _ _ _ _ Hloop Hev))|].
  eapply in_accept_order_events; [|done].
  by eapply in_accept_order_main_loop; [apply in_accept_order_boot|].
Qed.

Lemma clients_in_accept_order_witness :
  NoDup (clients second_left) ∧ StronglySorted lt (clients second_left) ∧
  Forall (λ c, c < next_obj second_left) (clients second_left).
Proof.
  refine (clients_in_accept_order [first_poll] second_poll two_clients
            second_left (trace_of (main_loop [first_poll] boot))
            (trace_of (process_events (events second_poll) two_clients)) _ _).
  - vm_compute. reflexivity.
  - vm_compute. reflexivity.
Defined.

(** X11. The only readiness events of a client that are handled without
    an exception are ends of stream: whenever the handling returns, [read]
    has reported end-of-stream true, the connection is closed, unregistered
    and out of [clients], and nothing has been sent. *)
Theorem client_event_returns_only_at_end (ev : ready) (w w' : world)
    (t : list action) :
  fileobj ev ≠ server →
  handle_event ev w = (Ok (), w', t) →
  (∃ db, result_of (read (fileobj ev) (on_recv ev) w) = Ok (true, db)) ∧
  fileobj ev ∈ sel w ∧
  w' = evicted (fileobj ev) w ∧
  (fileobj ev ∉ clients w') ∧ (fileobj ev ∉ sel w') ∧
  fileobj ev ∈ closed w' ∧
  sends t = [].
Proof.
  intros Hs Hev.
  destruct (handle_event_no_send ev w) as [Hno _]. rewrite Hev in Hno.
  apply handle_event_ok in Hev as [(? & _)|(_ & Hreg & -> & Hread)]; [done|].
  split; [done|]. split; [done|]. split; [done|]. cbn.
  split; [rewrite list_elem_of_filter; tauto|].
  split; [rewrite elem_of_difference, elem_of_singleton; tauto|].
  split; [by apply elem_of_union_l, elem_of_singleton|by apply sends_none].
Qed.

Lemma client_event_returns_only_at_end_witness :
  result_of (read 1 [Recv []] two_clients) = Ok (true, []) ∧
  world_of (handle_event (yields 1 [Recv []]) two_clients) = evicted 1 two_clients.
Proof.
  assert (H1 : fileobj (yields 1 [Recv []]) ≠ server)
    by (vm_compute; discriminate).
  assert (H2 : handle_event (yields 1 [Recv []]) two_clients =
    (Ok (), world_of (handle_event (yields 1 [Recv []]) two_clients),
     trace_of (handle_event (yields 1 [Recv []]) two_clients)))
    by (vm_compute; reflexivity).
  destruct (client_event_returns_only_at_end _ _ _ _ H1 H2)
    as (_ & _ & Hw & _).
  split; [vm_compute; reflexivity|exact Hw].
Defined.

(** X12. Bytes that [read] has accumulated when it reports end-of-stream
    (full chunks followed by a zero-byte [recv] or by a fault) are dropped:
    the event is handled without exception, the trace shows them received,
    and no write or send of them is attempted. *)
Theorem eof_discards_buffer (ev : ready) (w w1 : world) (db : bytes)
    (t : list action) :
  fileobj ev ≠ server →
  fileobj ev ∈ sel w →
  read (fileobj ev) (on_recv ev) w = (Ok (true, db), w1, t) →
  result_of (handle_event ev w) = Ok () ∧
  received (trace_of (handle_event ev w)) = db ∧
  sends (trace_of (handle_event ev w)) = [].
Proof.
  intros Hs Hreg Hread.
  destruct (handle_event_no_send ev w) as [Hno _].
  rewrite (handle_event_eof _ _ _ _ _ Hs Hreg Hread) in *.
  apply read_spec in Hread as (-> & _).
  split; [done|]. split; [|by apply sends_none].
  unfold trace_of. cbn [snd]. rewrite received_app. unfold received at 2.
  cbn. by rewrite app_nil_r.
Qed.

Lemma eof_discards_buffer_witness :
  result_of (handle_event (yields 1 [Recv full_chunk; Recv []]) two_clients) =
    Ok () ∧
  received (trace_of (handle_event (yields 1 [Recv full_chunk; Recv []])
                        two_clients)) = full_chunk ∧
  sends (trace_of (handle_event (yields 1 [Recv full_chunk; Recv []])
                     two_clients)) = [].
Proof.
  assert (H1 : fileobj (yields 1 [Recv full_chunk; Recv []]) ≠ server)
    by (vm_compute; discriminate).
  assert (H2 : fileobj (yields 1 [Recv full_chunk; Recv []]) ∈ sel two_clients)
    by (vm_compute; reflexivity).
  assert (H3 : read (fileobj (yields 1 [Recv full_chunk; Recv []]))
                 (on_recv (yields 1 [Recv full_chunk; Recv []])) two_clients =
    (Ok (true, full_chunk),
     world_of (read 1 [Recv full_chunk; Recv []] two_clients),
     trace_of (read 1 [Recv full_chunk; Recv []] two_clients)))
    by (vm_compute; reflexivity).
  exact (eof_discards_buffer _ _ _ _ _ H1 H2 H3).
Defined.
